(** * JState: the batching state store and the form binder

    A shallow embedding of [jstate.js] (the [AppState] class, its private
    flush scheduler [_STATETIMEOUTAPPLY], and [JState.bindFormState]).

    Modelling conventions.
    - A JavaScript object used as a dictionary ([state], [nextStateChanges],
      [stateApplierFunctionMap], the form target object) is the finite map of
      its own properties, a [gmap string _].  Reading a missing member
      yields [undefined].  Member names that collide with what every object
      inherits ([toString], [constructor], ...) are outside the model: the
      program reads such a name through [Object.prototype], and an argument
      with an own member named [hasOwnProperty] makes [each] call that
      member.  [JS.inherited] lists these names; a theorem that would not
      hold of the program on them says so in its hypotheses ([JS.ordinary],
      [AppState.ordinary_store], [AppState.ordinary_event]).
    - Values carry what strict equality looks at: primitives by content
      (with [NaN] unequal to itself), arrays, objects and functions by
      reference.
    - The host's timer queue is explicit: [setTimeout] hands out a fresh
      token and records it, [clearTimeout] drops it, and the host fires a
      callback only while its token is still recorded.
    - Handlers are opaque callbacks: invoking one appends a record to the
      host's invocation log; they return normally and do not call back into
      the store. *)

From stdpp Require Import gmap strings list fin_maps pretty.

(** ** Values *)

Module JS.

(** References to heap objects, compared by identity. *)
Abbreviation ref := nat (only parsing).

#[local] Set Warnings "-register-all".

Inductive number :=
| NaN
| Num (z : Z).

Inductive value :=
| VUndefined
| VNull
| VBoolean (b : bool)
| VNumber (n : number)
| VString (s : string)
| VArray (r : ref) (items : list value)
| VObject (r : ref) (props : list (string * value))
| VFunction (r : ref).

(** [Object.prototype.toString.call(obj)] without the surrounding
    ["[object " ... "]"]. *)
Definition class_of (obj : value) : string :=
  match obj with
  | VUndefined => "Undefined"
  | VNull => "Null"
  | VBoolean _ => "Boolean"
  | VNumber _ => "Number"
  | VString _ => "String"
  | VArray _ _ => "Array"
  | VObject _ _ => "Object"
  | VFunction _ => "Function"
  end.

Definition isType (obj : value) (type : string) : bool :=
  bool_decide (class_of obj = type).

Definition isUndefined (obj : value) : bool :=
  match obj with VUndefined => true | _ => false end.

Definition isNull (obj : value) : bool :=
  match obj with VNull => true | _ => false end.

Definition isBoolean (obj : value) : bool := isType obj "Boolean".
Definition isNumber (obj : value) : bool := isType obj "Number".
Definition isString (obj : value) : bool := isType obj "String".
Definition isArray (obj : value) : bool := isType obj "Array".
Definition isFunction (obj : value) : bool := isType obj "Function".
Definition isObject (obj : value) : bool := isType obj "Object".

(** [a === b]. *)
Definition strict_eq (a b : value) : bool :=
  match a, b with
  | VUndefined, VUndefined => true
  | VNull, VNull => true
  | VBoolean x, VBoolean y => bool_decide (x = y)
  | VNumber (Num x), VNumber (Num y) => bool_decide (x = y)
  | VString x, VString y => bool_decide (x = y)
  | VArray r _, VArray r' _ => bool_decide (r = r')
  | VObject r _, VObject r' _ => bool_decide (r = r')
  | VFunction r, VFunction r' => bool_decide (r = r')
  | _, _ => false
  end.

(** [a !== b]. *)
Definition strict_neq (a b : value) : bool := negb (strict_eq a b).

(** Truthiness, as tested by [if (x)], [!x] and [!!x]. *)
Definition truthy (v : value) : bool :=
  match v with
  | VUndefined | VNull => false
  | VBoolean b => b
  | VNumber NaN => false
  | VNumber (Num z) => negb (bool_decide (z = 0%Z))
  | VString s => negb (bool_decide (s = ""))
  | VArray _ _ | VObject _ _ | VFunction _ => true
  end.

(** [obj[key]] on a dictionary object, for a [key] that is not an inherited
    name: the own member, or [undefined]. *)
Definition get (obj : gmap string value) (key : string) : value :=
  default VUndefined (obj !! key).

(** The own enumerable properties that [for (let x in obj)] visits and
    [hasOwnProperty] lets through. *)
Definition own_entries (obj : value) : list (string * value) :=
  match obj with
  | VObject _ props => props
  | VArray _ items => imap (λ i x, (pretty i, x)) items
  | _ => []
  end.

(** The member name a key denotes in [obj[key]]: [null] names the member
    ["null"]. *)
Definition property_key (key : option string) : string := default "null" key.

(** [each(list, func)].  [func] receives the member and its key ([None]
    stands for the [null] key of the primitive branch) and acts on the
    threaded state.  Every callback in this file returns [undefined], so the
    loop never takes its [break].  The guard [list.hasOwnProperty(x)] is
    resolved on the argument; this is the loop for an argument that has no
    own member of that name, where the guard lets every own member
    through. *)
Definition each {S : Type} (list' : value)
    (func : value → option string → S → S) (s : S) : S :=
  if isUndefined list' || isNull list' then s
  else if isBoolean list' || isNumber list' || isString list' then
    func list' None s
  else
    foldl (λ acc '(x, v), func v (Some x) acc) s (own_entries list').

(** The value an object literal or an enumeration binds to [key]: the last
    entry under that name. *)
Fixpoint property (props : list (string * value)) (key : string) : option value :=
  match props with
  | [] => None
  | (x, v) :: props =>
      match property props key with
      | Some w => Some w
      | None => if decide (x = key) then Some v else None
      end
  end.

(** [obj[x] = v] for each entry, in order. *)
Definition assign_all (entries : list (string * value)) (obj : gmap string value)
    : gmap string value :=
  foldl (λ obj '(x, v), <[x := v]> obj) obj entries.

(** The names of the members every object inherits from
    [Object.prototype]. *)
Definition Object_prototype : list string :=
  [ "constructor"; "hasOwnProperty"; "isPrototypeOf"; "propertyIsEnumerable";
    "toLocaleString"; "toString"; "valueOf"; "__proto__";
    "__defineGetter__"; "__defineSetter__";
    "__lookupGetter__"; "__lookupSetter__" ].

Definition inherited (key : string) : bool :=
  bool_decide (key ∈ Object_prototype).

(** Entries none of whose names is inherited: on such an argument
    [list.hasOwnProperty] is the inherited function, and [obj[x] = v]
    creates or overwrites the own member [x]. *)
Definition ordinary (props : list (string * value)) : Prop :=
  Forall (λ '(key, _), inherited key = false) props.

End JS.

(** ** The host's deferred-callback queue and handler invocations *)

Module Host.
Import JS.

(** Timer tokens, as returned by [setTimeout]. *)
Abbreviation timer := nat (only parsing).

(** One invocation [handler(newValue, oldValue)] made by a flush: the member
    name it was looked up under, the function called and its arguments. *)
Record Invocation := mkInvocation {
  member : string;
  handler : ref;
  newValue : value;
  oldValue : value }.

Record Host := mkHost {
  scheduled : list timer;        (* tokens whose callback is still to fire *)
  fresh : timer;                 (* the next token [setTimeout] returns *)
  invoked : list Invocation }.   (* handler invocations so far, oldest first *)

(** [setTimeout(callback, 0)]: every callback this store schedules is the
    same flush closure, so the token is all the queue has to remember. *)
Definition setTimeout (h : Host) : timer * Host :=
  (fresh h,
   {| scheduled := scheduled h ++ [fresh h];
      fresh := S (fresh h);
      invoked := invoked h |}).

(** [clearTimeout(t)]: a token that is not scheduled is ignored. *)
Definition clearTimeout (t : timer) (h : Host) : Host :=
  {| scheduled := filter (λ t', t' ≠ t) (scheduled h);
     fresh := fresh h;
     invoked := invoked h |}.

Definition invoke (i : Invocation) (h : Host) : Host :=
  {| scheduled := scheduled h; fresh := fresh h; invoked := invoked h ++ [i] |}.

Definition unschedule (t : timer) (h : Host) : Host := clearTimeout t h.

End Host.

(** ** The AppState class *)

Module AppState.
Import JS Host.

Record AppState := mkAppState {
  stateApplierFunctionMap : gmap string ref;
  changeVerifierMap : gmap string value;
  state : gmap string value;
  nextStateChanges : gmap string value;
  applierTimeout : option timer }.

(** What a method hands back: [this] or [undefined]. *)
Inductive returned :=
| This
| Undefined.

Definition set_handlers (m : gmap string ref) (a : AppState) : AppState :=
  {| stateApplierFunctionMap := m;
     changeVerifierMap := changeVerifierMap a;
     state := state a;
     nextStateChanges := nextStateChanges a;
     applierTimeout := applierTimeout a |}.

Definition set_state (m : gmap string value) (a : AppState) : AppState :=
  {| stateApplierFunctionMap := stateApplierFunctionMap a;
     changeVerifierMap := changeVerifierMap a;
     state := m;
     nextStateChanges := nextStateChanges a;
     applierTimeout := applierTimeout a |}.

Definition set_nextStateChanges (m : gmap string value) (a : AppState) : AppState :=
  {| stateApplierFunctionMap := stateApplierFunctionMap a;
     changeVerifierMap := changeVerifierMap a;
     state := state a;
     nextStateChanges := m;
     applierTimeout := applierTimeout a |}.

Definition set_applierTimeout (t : option timer) (a : AppState) : AppState :=
  {| stateApplierFunctionMap := stateApplierFunctionMap a;
     changeVerifierMap := changeVerifierMap a;
     state := state a;
     nextStateChanges := nextStateChanges a;
     applierTimeout := t |}.

(** [removeHandler(name)]. *)
Definition removeHandler (name : string) (a : AppState) : returned * AppState :=
  (This, set_handlers (delete name (stateApplierFunctionMap a)) a).

(** [addHandler(name, func)]. *)
Definition addHandler (name : string) (func : value) (a : AppState)
    : returned * AppState :=
  match func with
  | VFunction f =>
      (This, set_handlers (<[name := f]> (stateApplierFunctionMap a)) a)
  | _ =>
      if isNull func || isUndefined func then
        (This, (removeHandler name a).2)
      else (This, a)
  end.

(** The object the constructor starts from, before the [each] over
    [funcMap]. *)
Definition blank : AppState :=
  {| stateApplierFunctionMap := ∅;
     changeVerifierMap := ∅;
     state := ∅;
     nextStateChanges := ∅;
     applierTimeout := None |}.

(** The outcome of [new AppState(funcMap)], with the [addHandler] calls the
    constructor made on the way, in order. *)
Inductive outcome :=
| Threw (message : string)
| Built (a : AppState).

Record Construction := mkConstruction {
  registrations : list (string * value);
  result : outcome }.

Definition constructor (funcMap : value) : Construction :=
  if negb (isObject funcMap) then
    {| registrations := []; result := Threw "Expected object for state applier." |}
  else
    let '(calls, a) :=
      each funcMap
        (λ f n '(calls, a),
           (calls ++ [(property_key n, f)], (addHandler (property_key n) f a).2))
        ([], blank) in
    {| registrations := calls; result := Built a |}.

(** [setState(nextState)]. *)
Definition setState (nextState : value) (a : AppState) : returned * AppState :=
  if negb (isObject nextState) then (Undefined, a)
  else
    (This,
     each nextState
       (λ value key a,
          set_state (<[property_key key := value]> (state a)) a)
       a).

(** The timer callback armed by [_STATETIMEOUTAPPLY]: one visit of the
    [each] over [nextStateChanges].  The handler is the own member of the
    registry, which is what [stateApplierFunctionMap[key]] reads for a
    [key] that is not an inherited name. *)
Definition flush_entry (key : string) (value : JS.value) (ah : AppState * Host)
    : AppState * Host :=
  let '(a, h) := ah in
  match stateApplierFunctionMap a !! key with
  | Some f =>
      (set_state (<[key := value]> (state a)) a,
       invoke {| member := key; handler := f;
                 newValue := value; oldValue := get (state a) key |} h)
  | None => (a, h)
  end.

Definition flush_entries (entries : list (string * value)) (ah : AppState * Host)
    : AppState * Host :=
  foldl (λ ah '(key, value), flush_entry key value ah) ah entries.

(** The whole callback.  The visiting order of [for ... in] is the order of
    [map_to_list]; [flush_entries_Permutation] below shows that the committed
    state does not depend on it. *)
Definition flush (ah : AppState * Host) : AppState * Host :=
  let '(a, h) := flush_entries (map_to_list (nextStateChanges ah.1)) ah in
  (set_nextStateChanges ∅ a, h).

(** [_STATETIMEOUTAPPLY.apply(this)]. *)
Definition _STATETIMEOUTAPPLY (ah : AppState * Host) : AppState * Host :=
  let '(a, h) := ah in
  let '(a, h) :=
    match applierTimeout a with
    | Some t => (set_applierTimeout None a, clearTimeout t h)
    | None => (a, h)
    end in
  let '(t, h) := setTimeout h in
  (set_applierTimeout (Some t) a, h).

(** [applyState(nextState)]. *)
Definition applyState (nextState : value) (ah : AppState * Host)
    : returned * (AppState * Host) :=
  if negb (isObject nextState) then (Undefined, ah)
  else
    let a :=
      each nextState
        (λ value key a,
           if strict_neq (get (state a) (property_key key)) value then
             set_nextStateChanges
               (<[property_key key := value]> (nextStateChanges a)) a
           else a)
        ah.1 in
    (This, _STATETIMEOUTAPPLY (a, ah.2)).

(** [touchState(memberName...)]: [each] over [arguments] visits the member
    names in call order.  As in the flush, the registry test is the one the
    program makes for names that are not inherited. *)
Definition touchState (arguments : list string) (ah : AppState * Host)
    : returned * (AppState * Host) :=
  let a :=
    foldl
      (λ a memberName,
         match stateApplierFunctionMap a !! memberName with
         | Some _ =>
             set_nextStateChanges
               (<[memberName := get (state a) memberName]> (nextStateChanges a)) a
         | None => a
         end)
      ah.1 arguments in
  (This, _STATETIMEOUTAPPLY (a, ah.2)).

(** The host runs the callback of a token that is still scheduled. *)
Definition fire (t : timer) (ah : AppState * Host) : option (AppState * Host) :=
  if bool_decide (t ∈ scheduled ah.2) then
    Some (flush (ah.1, unschedule t ah.2))
  else None.

(** The entries of [nextState] that [applyState] stages: those that differ
    from the committed state under [!==]. *)
Definition differing (committed : gmap string value) (props : list (string * value))
    : list (string * value) :=
  filter (λ '(key, value), strict_neq (get committed key) value = true) props.

(** The entries [touchState] stages: the committed values of the names that
    have a handler. *)
Definition touched (a : AppState) (arguments : list string) : list (string * value) :=
  omap
    (λ memberName,
       match stateApplierFunctionMap a !! memberName with
       | Some _ => Some (memberName, get (state a) memberName)
       | None => None
       end)
    arguments.

(** The pending entries a flush acts on: those whose key has a handler. *)
Definition handled (handlers : gmap string ref) (entries : list (string * value))
    : list (string * value) :=
  filter (λ '(key, _), is_Some (handlers !! key)) entries.

(** The invocations a flush over [entries] makes when every handler sees the
    committed value [committed] holds for its key. *)
Definition invocations (handlers : gmap string ref) (committed : gmap string value)
    (entries : list (string * value)) : list Invocation :=
  omap
    (λ '(key, value),
       match handlers !! key with
       | Some f =>
           Some {| member := key; handler := f;
                   newValue := value; oldValue := get committed key |}
       | None => None
       end)
    entries.

(** [applyState] called on each argument in turn, with no flush between. *)
Definition applyStates (args : list value) (ah : AppState * Host) : AppState * Host :=
  foldl (λ ah nextState, (applyState nextState ah).2) ah args.

(** The entries the calls [applyState(args[0])], [applyState(args[1])], ...
    stage against the committed state, in staging order. *)
Definition staged (committed : gmap string value) (args : list value)
    : list (string * value) :=
  flat_map
    (λ nextState,
       if isObject nextState then differing committed (own_entries nextState)
       else [])
    args.

(** *** Histories: method calls and timer firings on one store *)

Inductive event :=
| AddHandler (name : string) (func : value)
| RemoveHandler (name : string)
| SetState (nextState : value)
| ApplyState (nextState : value)
| TouchState (arguments : list string)
| Fire (t : timer).

(** One event; [None] when the host is asked to fire a token it does not
    hold, which cannot happen. *)
Definition step (e : event) (ah : AppState * Host) : option (AppState * Host) :=
  match e with
  | AddHandler name func => Some ((addHandler name func ah.1).2, ah.2)
  | RemoveHandler name => Some ((removeHandler name ah.1).2, ah.2)
  | SetState nextState => Some ((setState nextState ah.1).2, ah.2)
  | ApplyState nextState => Some (applyState nextState ah).2
  | TouchState arguments => Some (touchState arguments ah).2
  | Fire t => fire t ah
  end.

Fixpoint run (es : list event) (ah : AppState * Host) : option (AppState * Host) :=
  match es with
  | [] => Some ah
  | e :: es =>
      match step e ah with
      | Some ah => run es ah
      | None => None
      end
  end.

(** A host in which this store has nothing scheduled yet. *)
Definition quiet (n : timer) : Host :=
  {| scheduled := []; fresh := n; invoked := [] |}.

(** Stores that the public interface can produce: built by the constructor
    and driven by any history. *)
Definition reachable (ah : AppState * Host) : Prop :=
  ∃ funcMap a n es,
    result (constructor funcMap) = Built a ∧ run es (a, quiet n) = Some ah.

(** Calls that end in [_STATETIMEOUTAPPLY]. *)
Definition arms (e : event) : bool :=
  match e with
  | ApplyState nextState => isObject nextState
  | TouchState _ => true
  | _ => false
  end.

Definition is_fire (e : event) : bool :=
  match e with Fire _ => true | _ => false end.

(** What one call stages into the pending buffer of the store it is made
    on. *)
Definition stages (e : event) (a : AppState) : list (string * value) :=
  match e with
  | ApplyState nextState =>
      if isObject nextState then differing (state a) (own_entries nextState)
      else []
  | TouchState arguments => touched a arguments
  | _ => []
  end.


(** Events that neither register a handler under [key] nor write [key]
    through [setState]. *)
Definition avoids (key : string) (e : event) : Prop :=
  match e with
  | AddHandler name func => name ≠ key ∨ isFunction func = false
  | SetState nextState =>
      isObject nextState = false ∨ property (own_entries nextState) key = None
  | _ => True
  end.

(** The scheduling discipline: nothing is scheduled and nothing is pending,
    or exactly the token the store remembers is scheduled; and every
    scheduled token is older than the next one [setTimeout] will return. *)
Definition well_scheduled (ah : AppState * Host) : Prop :=
  (scheduled ah.2 = [] ∧ nextStateChanges ah.1 = ∅
   ∨ ∃ t, scheduled ah.2 = [t] ∧ applierTimeout ah.1 = Some t)
  ∧ ∀ t, t ∈ scheduled ah.2 → t < fresh ah.2.

(** A store with nothing pending under an inherited name. *)
Definition ordinary_store (a : AppState) : Prop :=
  map_Forall (λ key _, inherited key = false) (nextStateChanges a).

(** Calls that mention no inherited name. *)
Definition ordinary_event (e : event) : Prop :=
  match e with
  | AddHandler name _ | RemoveHandler name => inherited name = false
  | SetState nextState | ApplyState nextState => ordinary (own_entries nextState)
  | TouchState arguments => Forall (λ name, inherited name = false) arguments
  | Fire _ => True
  end.

(** Calls that write the handler registry. *)
Definition registers (e : event) : bool :=
  match e with
  | AddHandler _ _ | RemoveHandler _ => true
  | _ => false
  end.

(** Events that write the committed state: [setState] and the flush. *)
Definition commits (e : event) : bool :=
  match e with
  | SetState _ | Fire _ => true
  | _ => false
  end.

End AppState.

(** ** JState.bindFormState *)

Module FormState.
Import JS.

Record OptionElement := mkOption {
  option_value : string;
  option_label : string;
  option_selected : bool }.

(** The parts of a form control the binder looks at. *)
Record Element := mkElement {
  tagName : string;
  type : string;
  attributes : gmap string string;
  checked : bool;
  control_value : string;          (* [value] of an input or textarea *)
  options : list OptionElement }.  (* [options] of a select, in document order *)

(** [element.getAttribute(name)]: the attribute's text, or [null]. *)
Definition getAttribute (name : string) (element : Element) : value :=
  match attributes element !! name with
  | Some s => VString s
  | None => VNull
  end.

(** [element.value]: a select reports the value of its first selected
    option, or the empty string when none is selected. *)
Definition value_of (element : Element) : string :=
  if bool_decide (tagName element = "SELECT") then
    match filter (λ o, option_selected o = true) (options element) with
    | o :: _ => option_value o
    | [] => ""
    end
  else control_value element.

(** The target object, the [changeFunction] calls made so far, and the next
    unused reference for array literals. *)
Record Binding := mkBinding {
  state : gmap string value;
  changeFunction : bool;
  changed : list string;
  next_ref : ref }.

Definition write (memberName : string) (v : value) (b : Binding) : Binding :=
  {| state := <[memberName := v]> (state b);
     changeFunction := changeFunction b;
     changed := changed b;
     next_ref := next_ref b |}.

Definition remove (memberName : string) (b : Binding) : Binding :=
  {| state := delete memberName (state b);
     changeFunction := changeFunction b;
     changed := changed b;
     next_ref := next_ref b |}.

(** [changeFunction && changeFunction(memberName)]. *)
Definition notify (memberName : string) (b : Binding) : Binding :=
  {| state := state b;
     changeFunction := changeFunction b;
     changed := if changeFunction b then changed b ++ [memberName] else changed b;
     next_ref := next_ref b |}.

(** Evaluating an array literal: a new reference. *)
Definition new_array (items : list value) (b : Binding) : value * Binding :=
  (VArray (next_ref b) items,
   {| state := state b;
      changeFunction := changeFunction b;
      changed := changed b;
      next_ref := S (next_ref b) |}).

Definition CHECKBOXEVENT (element : Element) (b : Binding) : Binding :=
  match getAttribute "name" element with
  | VString memberName =>
      if negb (truthy (VString memberName)) then b
      else
        notify memberName
          (if checked element then
             write memberName (VString (value_of element)) b
           else remove memberName b)
  | _ => b
  end.

Definition TEXTEVENT (element : Element) (b : Binding) : Binding :=
  match getAttribute "name" element with
  | VString memberName =>
      if negb (truthy (VString memberName)) then b
      else notify memberName (write memberName (VString (value_of element)) b)
  | _ => b
  end.

Definition SELECTEVENT (element : Element) (b : Binding) : Binding :=
  match getAttribute "name" element with
  | VString memberName =>
      if negb (truthy (VString memberName)) then b
      else
        let multi := truthy (getAttribute "multiple" element) in
        notify memberName
          (if multi then
             let '(arr, b) :=
               new_array
                 (map (λ o, VString (option_value o))
                    (filter (λ o, option_selected o = true) (options element)))
                 b in
             write memberName arr b
           else write memberName (VString (value_of element)) b)
  | _ => b
  end.

Inductive listener :=
| Checkbox
| Text
| Select.

Definition listen (l : listener) : Element → Binding → Binding :=
  match l with
  | Checkbox => CHECKBOXEVENT
  | Text => TEXTEVENT
  | Select => SELECTEVENT
  end.

(** The listeners the loop over [formElements] attaches to one element, with
    the event each listens for. *)
Definition attached (formElement : Element) : list (string * listener) :=
  if bool_decide (tagName formElement = "INPUT") then
    if bool_decide (type formElement = "checkbox")
       || bool_decide (type formElement = "radio") then
      [("change", Checkbox)]
    else if bool_decide (type formElement ≠ "button")
            && bool_decide (type formElement ≠ "submit") then
      [("change", Text); ("keyup", Text)]
    else []
  else if bool_decide (tagName formElement = "TEXTAREA") then
    [("change", Text); ("keyup", Text)]
  else if bool_decide (tagName formElement = "SELECT") then
    [("change", Select)]
  else [].

(** What can be passed as [formElements]. *)
Inductive collection :=
| Missing                                  (* [undefined] or [null] *)
| ElementArray (elements : list Element)   (* an array of elements *)
| NodeList (elements : list Element).      (* a collection such as [form.elements] *)

(** [isBlank(formElements)]: only the [undefined], [null] and empty-array
    cases of [isBlank] apply to a collection of elements. *)
Definition isBlank (formElements : collection) : bool :=
  match formElements with
  | Missing => true
  | ElementArray elements => bool_decide (length elements = 0)
  | NodeList _ => false
  end.

(** [bindFormState(formElements, targetObject, changeFunc)]: [None] is the
    bare [return] on a blank collection; otherwise the returned object, ready
    to receive the events of the elements the loop attached listeners to. *)
Definition bindFormState (formElements : collection)
    (targetObject : option (gmap string value))
    (changeFunc : bool) (next : ref) : option Binding :=
  if isBlank formElements then None
  else
    Some {| state := default ∅ targetObject;
            changeFunction := changeFunc;
            changed := [];
            next_ref := next |}.

(** The browser dispatches [eventName] on a bound element. *)
Definition dispatch (eventName : string) (element : Element) (b : Binding) : Binding :=
  foldl
    (λ b '(name, l), if bool_decide (name = eventName) then listen l element b else b)
    b (attached element).

(** A select named [name] whose [multiple] attribute, when present, has the
    text [multiple]. *)
Definition select (name : string) (multiple : option string)
    (opts : list OptionElement) : Element :=
  {| tagName := "SELECT";
     type := if multiple is Some _ then "select-multiple" else "select-one";
     attributes :=
       match multiple with
       | Some m => <["multiple" := m]> {["name" := name]}
       | None => {["name" := name]}
       end;
     checked := false;
     control_value := "";
     options := opts |}.

(** The values of the selected options, in document order. *)
Definition selected_values (element : Element) : list value :=
  map (λ o, VString (option_value o))
    (filter (λ o, option_selected o = true) (options element)).

(** An input control of the given type. *)
Definition input (name type' value : string) (is_checked : bool) : Element :=
  {| tagName := "INPUT";
     type := type';
     attributes := {["name" := name]};
     checked := is_checked;
     control_value := value;
     options := [] |}.

(** The member an element reports to: its [name] attribute, unless that is
    absent or empty. *)
Definition memberName (element : Element) : option string :=
  match attributes element !! "name" with
  | Some name => if bool_decide (name = "") then None else Some name
  | None => None
  end.

(** A sequence of events, each dispatched on the element as it is at that
    moment. *)
Definition dispatch_all (events : list (string * Element)) (b : Binding) : Binding :=
  foldl (λ b '(eventName, element), dispatch eventName element b) b events.

End FormState.

(** * Properties *)

Module Facts.
Import JS Host AppState.

(** ** Values and [each] *)

Lemma isObject_VObject v :
  isObject v = true ↔ ∃ r props, v = VObject r props.
Proof.
  split.
  - destruct v; try discriminate. eauto.
  - intros (r & props & ->). reflexivity.
Qed.

Lemma each_VObject {S : Type} r props (func : value → option string → S → S) s :
  each (VObject r props) func s =
  foldl (λ acc '(x, v), func v (Some x) acc) s props.
Proof. reflexivity. Qed.

Lemma assign_all_lookup entries obj key :
  assign_all entries obj !! key =
  match property entries key with
  | Some v => Some v
  | None => obj !! key
  end.
Proof.
  revert obj. induction entries as [|[x v] entries IH]; intros obj; [done|].
  change (assign_all ((x, v) :: entries) obj)
    with (assign_all entries (<[x := v]> obj)).
  rewrite IH. simpl. destruct (property entries key); [done|].
  rewrite lookup_insert. by destruct (decide (x = key)).
Qed.

Lemma property_None entries key :
  property entries key = None ↔ ∀ v, (key, v) ∉ entries.
Proof.
  induction entries as [|[x v] entries IH]; simpl.
  - split; [intros _ w Hw; inversion Hw | done].
  - destruct (property entries key) eqn:E.
    + split; [done|]. intros H.
      assert (Hn : Some v0 = None); [|done].
      apply IH. intros w Hw. apply (H w). by right.
    + destruct (decide (x = key)) as [->|Hne].
      * split; [done|]. intros H. exfalso. apply (H v). by left.
      * split; [|done]. intros _ w Hw.
        apply elem_of_cons in Hw as [Heq|Hw]; [congruence|].
        revert Hw. by apply IH.
Qed.

Lemma property_Some_elem entries key v :
  property entries key = Some v → (key, v) ∈ entries.
Proof.
  induction entries as [|[x w] entries IH]; simpl; [done|].
  destruct (property entries key) eqn:E.
  - intros [= ->]. right. by apply IH.
  - destruct (decide (x = key)) as [->|]; [|done]. intros [= ->]. by left.
Qed.

Lemma property_NoDup entries key v :
  NoDup entries.*1 → (key, v) ∈ entries → property entries key = Some v.
Proof.
  induction entries as [|[x w] entries IH]; simpl; [by inversion 2|].
  intros Hnd Hin. apply NoDup_cons in Hnd as [Hx Hnd].
  apply elem_of_cons in Hin as [[= -> ->]|Hin].
  - assert (property entries x = None) as ->.
    { apply property_None. intros u Hu. apply Hx.
      apply list_elem_of_fmap. by exists (x, u). }
    by rewrite decide_True.
  - by rewrite (IH Hnd Hin).
Qed.

(** ** Registration and construction *)

Lemma constructor_loop props calls a :
  foldl
    (λ acc '(x, v),
       (λ f n '(calls, a),
          (calls ++ [(property_key n, f)], (addHandler (property_key n) f a).2))
         v (Some x) acc)
    (calls, a) props
  = (calls ++ props, foldl (λ a '(n, f), (addHandler n f a).2) a props).
Proof.
  revert calls a. induction props as [|[n f] props IH]; intros calls a; simpl.
  - by rewrite app_nil_r.
  - rewrite IH. by rewrite <- app_assoc.
Qed.

Lemma addHandler_frame name func a :
  state (addHandler name func a).2 = state a
  ∧ nextStateChanges (addHandler name func a).2 = nextStateChanges a
  ∧ applierTimeout (addHandler name func a).2 = applierTimeout a
  ∧ changeVerifierMap (addHandler name func a).2 = changeVerifierMap a.
Proof. by destruct func as [| | |[]| | | |]. Qed.

Lemma registration_frame props a :
  let a' := foldl (λ a '(n, f), (addHandler n f a).2) a props in
  state a' = state a
  ∧ nextStateChanges a' = nextStateChanges a
  ∧ applierTimeout a' = applierTimeout a.
Proof.
  revert a. induction props as [|[n f] props IH]; intros a; simpl; [done|].
  destruct (IH (addHandler n f a).2) as (-> & -> & ->).
  by destruct (addHandler_frame n f a) as (-> & -> & -> & _).
Qed.

Lemma constructor_throws_or_object props r a :
  result (constructor (VObject r props)) = Built a →
  state a = ∅ ∧ nextStateChanges a = ∅ ∧ applierTimeout a = None.
Proof.
  unfold constructor. change (negb (isObject (VObject r props))) with false.
  cbv iota. rewrite each_VObject, (constructor_loop props [] blank).
  intros [= <-]. by destruct (registration_frame props blank) as (-> & -> & ->).
Qed.

(** X25.  A constructor argument that is not a plain mapping makes the
    constructor throw before it has made any [addHandler] call; a plain
    mapping none of whose member names is inherited gives a store with empty
    committed state, empty pending buffer and no scheduled flush, obtained by
    calling [addHandler] on each entry in turn. *)
Theorem constructor_throws_or_registers funcMap :
  (isObject funcMap = false →
     constructor funcMap =
     {| registrations := [];
        result := Threw "Expected object for state applier." |})
  ∧ (∀ r props, funcMap = VObject r props → ordinary props →
       ∃ a,
         constructor funcMap = {| registrations := props; result := Built a |}
         ∧ a = foldl (λ a '(n, f), (addHandler n f a).2) blank props
         ∧ state a = ∅
         ∧ nextStateChanges a = ∅
         ∧ applierTimeout a = None).
Proof.
  split.
  - intros Hno. unfold constructor. by rewrite Hno.
  - intros r props -> _.
    exists (foldl (λ a '(n, f), (addHandler n f a).2) blank props).
    split; [|split; [done|]].
    + unfold constructor.
      change (negb (isObject (VObject r props))) with false.
      cbv iota. rewrite each_VObject.
      by rewrite (constructor_loop props [] blank).
    + by destruct (registration_frame props blank) as (-> & -> & ->).
Qed.

Lemma constructor_throws_or_registers_witness :
  constructor (VArray 0 [VFunction 1]) =
    {| registrations := [];
       result := Threw "Expected object for state applier." |}
  ∧ ∃ a,
      constructor (VObject 0 [("a", VFunction 1)]) =
        {| registrations := [("a", VFunction 1)]; result := Built a |}
      ∧ stateApplierFunctionMap a !! "a" = Some 1.
Proof.
  split.
  - apply (constructor_throws_or_registers (VArray 0 [VFunction 1])).
    reflexivity.
  - destruct (constructor_throws_or_registers (VObject 0 [("a", VFunction 1)]))
      as [_ H].
    destruct (H 0 [("a", VFunction 1)] eq_refl ltac:(repeat constructor))
      as (a & Hc & Ha & _).
    exists a. split; [exact Hc|]. rewrite Ha. reflexivity.
Defined.

(** C10.  [addHandler(name, v)] with [v] neither a function nor [null] nor
    [undefined] returns [this] and leaves the store, and so the whole handler
    registry, as it was: nothing is registered and the handler already
    registered under [name] stays. *)
Theorem addHandler_ignores_other_values name v a :
  isFunction v = false → isNull v = false → isUndefined v = false →
  addHandler name v a = (This, a)
  ∧ stateApplierFunctionMap (addHandler name v a).2 = stateApplierFunctionMap a
  ∧ stateApplierFunctionMap (addHandler name v a).2 !! name
    = stateApplierFunctionMap a !! name.
Proof.
  intros Hf Hn Hu.
  assert (addHandler name v a = (This, a)) as ->; [|done].
  by destruct v as [| | |[]| | | |].
Qed.

Lemma addHandler_ignores_other_values_witness :
  let a := (addHandler "a" (VFunction 3) blank).2 in
  addHandler "a" (VString "x") a = (This, a)
  ∧ stateApplierFunctionMap (addHandler "a" (VString "x") a).2 !! "a" = Some 3.
Proof.
  intros a.
  destruct (addHandler_ignores_other_values "a" (VString "x") a
              eq_refl eq_refl eq_refl) as (H1 & _ & H3).
  split; [exact H1|]. rewrite H3. reflexivity.
Defined.

(** ** setState *)

Lemma setState_object r props a :
  setState (VObject r props) a
  = (This, set_state (assign_all props (state a)) a).
Proof.
  unfold setState. change (negb (isObject (VObject r props))) with false.
  cbv iota. rewrite each_VObject. f_equal.
  unfold assign_all. revert a.
  induction props as [|[x v] props IH]; intros a; simpl; [by destruct a|].
  by rewrite IH.
Qed.

(** X26.  [setState] with a plain mapping none of whose member names is
    inherited writes each entry of the argument into the committed state and
    touches nothing else: every other committed member, the pending buffer,
    the handler registry, the timer token, the host's queue and the
    invocation log are as before.  With an argument that is not a plain
    mapping the store and the host are unchanged. *)
Theorem setState_merges_only nextState a h :
  (∀ r props, nextState = VObject r props → ordinary props →
     ∃ a',
       step (SetState nextState) (a, h) = Some (a', h)
       ∧ (∀ key, state a' !! key =
                 match property props key with
                 | Some v => Some v
                 | None => state a !! key
                 end)
       ∧ nextStateChanges a' = nextStateChanges a
       ∧ stateApplierFunctionMap a' = stateApplierFunctionMap a
       ∧ changeVerifierMap a' = changeVerifierMap a
       ∧ applierTimeout a' = applierTimeout a)
  ∧ (isObject nextState = false →
       step (SetState nextState) (a, h) = Some (a, h)).
Proof.
  split.
  - intros r props -> _. eexists. split.
    + unfold step. cbn [fst snd]. by rewrite setState_object.
    + split; [|done]. intros key. cbn [state set_state snd].
      apply assign_all_lookup.
  - intros Hno. unfold step, setState. cbn [fst snd]. by rewrite Hno.
Qed.

Lemma setState_merges_only_witness :
  let a := (setState (VObject 0 [("a", VNumber (Num 1))]) blank).2 in
  state a !! "a" = Some (VNumber (Num 1))
  ∧ step (SetState (VString "a")) (a, quiet 0) = Some (a, quiet 0).
Proof.
  intros a. split.
  - destruct (setState_merges_only (VObject 0 [("a", VNumber (Num 1))])
                blank (quiet 0)) as [H _].
    destruct (H 0 [("a", VNumber (Num 1))] eq_refl ltac:(repeat constructor))
      as (a' & Hs & Hk & _).
    injection Hs as <-. etrans; [apply Hk|reflexivity].
  - apply (setState_merges_only (VString "a") a (quiet 0)). reflexivity.
Defined.

(** ** Arming the flush *)

Lemma set_nextStateChanges_id a : set_nextStateChanges (nextStateChanges a) a = a.
Proof. by destruct a. Qed.

Lemma _STATETIMEOUTAPPLY_eq a h :
  _STATETIMEOUTAPPLY (a, h) =
  (set_applierTimeout (Some (fresh h)) a,
   {| scheduled :=
        match applierTimeout a with
        | Some t => filter (λ t', t' ≠ t) (scheduled h)
        | None => scheduled h
        end ++ [fresh h];
      fresh := S (fresh h);
      invoked := invoked h |}).
Proof. unfold _STATETIMEOUTAPPLY. by destruct (applierTimeout a). Qed.

Lemma differing_cons committed x v props :
  differing committed ((x, v) :: props) =
  if strict_neq (get committed x) v
  then (x, v) :: differing committed props
  else differing committed props.
Proof.
  unfold differing. rewrite filter_cons.
  case_decide as H; cbn beta iota in H; by rewrite H || (apply not_true_is_false in H; by rewrite H).
Qed.

Lemma applyState_object r props a h :
  applyState (VObject r props) (a, h) =
  (This,
   _STATETIMEOUTAPPLY
     (set_nextStateChanges
        (assign_all (differing (state a) props) (nextStateChanges a)) a, h)).
Proof.
  unfold applyState. change (negb (isObject (VObject r props))) with false.
  cbv iota. rewrite each_VObject. cbn [fst snd]. do 3 f_equal.
  revert a. induction props as [|[x v] props IH]; intros a.
  - by destruct a.
  - rewrite differing_cons. cbn [foldl].
    change (property_key (Some x)) with x. rewrite IH.
    destruct (strict_neq (get (state a) x) v); [|done].
    by destruct a.
Qed.

Lemma touched_cons a n arguments :
  touched a (n :: arguments) =
  match stateApplierFunctionMap a !! n with
  | Some _ => (n, get (state a) n) :: touched a arguments
  | None => touched a arguments
  end.
Proof. unfold touched. simpl. by destruct (stateApplierFunctionMap a !! n). Qed.

Lemma touchState_eq arguments a h :
  touchState arguments (a, h) =
  (This,
   _STATETIMEOUTAPPLY
     (set_nextStateChanges
        (assign_all (touched a arguments) (nextStateChanges a)) a, h)).
Proof.
  unfold touchState. cbn [fst snd]. do 3 f_equal.
  revert a. induction arguments as [|n arguments IH]; intros a.
  - by destruct a.
  - cbn [foldl]. rewrite IH, touched_cons.
    destruct (stateApplierFunctionMap a !! n) eqn:E; [|done].
    by destruct a.
Qed.

Lemma applyState_not_object nextState ah :
  isObject nextState = false → applyState nextState ah = (Undefined, ah).
Proof. intros H. unfold applyState. by rewrite H. Qed.

(** X27.  [setState] and [applyState] return [this] when the argument is a
    plain mapping none of whose member names is inherited; on an argument
    that is not a plain mapping they return [undefined] and leave the store
    (and the host) untouched. *)
Theorem chaining_breaks_on_no_op nextState a h :
  (isObject nextState = true → ordinary (own_entries nextState) →
     (setState nextState a).1 = This
     ∧ (applyState nextState (a, h)).1 = This)
  ∧ (isObject nextState = false →
       setState nextState a = (Undefined, a)
       ∧ applyState nextState (a, h) = (Undefined, (a, h))).
Proof.
  split; intros H.
  - intros _. apply isObject_VObject in H as (r & props & ->).
    by rewrite setState_object, applyState_object.
  - split; [|by apply applyState_not_object].
    unfold setState. by rewrite H.
Qed.

Lemma chaining_breaks_on_no_op_witness :
  ((setState (VObject 0 []) blank).1 = This
   ∧ (applyState (VObject 0 []) (blank, quiet 0)).1 = This)
  ∧ (setState VNull blank = (Undefined, blank)
     ∧ applyState VNull (blank, quiet 0) = (Undefined, (blank, quiet 0))).
Proof.
  split.
  - apply (chaining_breaks_on_no_op (VObject 0 []) blank (quiet 0));
      [reflexivity | constructor].
  - apply (chaining_breaks_on_no_op VNull blank (quiet 0)). reflexivity.
Defined.

(** ** Unchanged values *)

Lemma differing_elem committed props key v :
  (key, v) ∈ differing committed props ↔
  (key, v) ∈ props ∧ strict_eq (get committed key) v = false.
Proof.
  unfold differing. rewrite list_elem_of_filter. unfold strict_neq.
  rewrite negb_true_iff. tauto.
Qed.




(** ** The flush *)

Lemma handled_cons handlers key v entries :
  handled handlers ((key, v) :: entries) =
  if handlers !! key is Some _ then (key, v) :: handled handlers entries
  else handled handlers entries.
Proof.
  unfold handled. rewrite filter_cons. case_decide as H; cbn beta iota in H.
  - destruct H as [f Hf]. by rewrite Hf.
  - destruct (handlers !! key); [|done]. exfalso. apply H. by eexists.
Qed.

Lemma invocations_cons handlers committed key v entries :
  invocations handlers committed ((key, v) :: entries) =
  match handlers !! key with
  | Some f =>
      {| member := key; handler := f; newValue := v;
         oldValue := get committed key |}
      :: invocations handlers committed entries
  | None => invocations handlers committed entries
  end.
Proof. unfold invocations. simpl. by destruct (handlers !! key). Qed.

Lemma invocations_insert handlers committed key v entries :
  key ∉ entries.*1 →
  invocations handlers (<[key := v]> committed) entries
  = invocations handlers committed entries.
Proof.
  induction entries as [|[x w] entries IH]; [done|].
  intros Hnot. rewrite !invocations_cons.
  apply not_elem_of_cons in Hnot as [Hne Hnot]. rewrite (IH Hnot).
  destruct (handlers !! x); [|done].
  unfold get. by rewrite lookup_insert_ne.
Qed.

Lemma flush_entries_eq entries a h :
  NoDup entries.*1 →
  flush_entries entries (a, h) =
  (set_state (assign_all (handled (stateApplierFunctionMap a) entries) (state a)) a,
   {| scheduled := scheduled h;
      fresh := fresh h;
      invoked :=
        invoked h ++ invocations (stateApplierFunctionMap a) (state a) entries |}).
Proof.
  revert a h. induction entries as [|[key v] entries IH]; intros a h Hnd.
  - destruct a, h. cbn. by rewrite app_nil_r.
  - apply NoDup_cons in Hnd as [Hnot Hnd].
    change (flush_entries ((key, v) :: entries) (a, h))
      with (flush_entries entries (flush_entry key v (a, h))).
    rewrite handled_cons, invocations_cons. unfold flush_entry.
    destruct (stateApplierFunctionMap a !! key) as [f|] eqn:E.
    + rewrite (IH _ _ Hnd). cbn [stateApplierFunctionMap state set_state
        scheduled fresh invoked invoke].
      rewrite (invocations_insert _ _ _ _ _ Hnot), <- app_assoc.
      by destruct a.
    + by rewrite (IH _ _ Hnd).
Qed.

Lemma flush_eq a h :
  flush (a, h) =
  (set_nextStateChanges ∅
     (set_state
        (assign_all
           (handled (stateApplierFunctionMap a) (map_to_list (nextStateChanges a)))
           (state a)) a),
   {| scheduled := scheduled h;
      fresh := fresh h;
      invoked :=
        invoked h
        ++ invocations (stateApplierFunctionMap a) (state a)
             (map_to_list (nextStateChanges a)) |}).
Proof.
  unfold flush. cbn [fst].
  by rewrite (flush_entries_eq _ a h (NoDup_fst_map_to_list _)).
Qed.

Lemma property_handled handlers (pending : gmap string value) key :
  property (handled handlers (map_to_list pending)) key =
  if handlers !! key is Some _ then pending !! key else None.
Proof.
  destruct (property _ key) as [v|] eqn:E.
  - apply property_Some_elem in E. unfold handled in E.
    apply list_elem_of_filter in E as [[f Hf] Hin]. cbn in Hf.
    apply elem_of_map_to_list in Hin. by rewrite Hf.
  - destruct (handlers !! key) as [f|] eqn:Hf; [|done].
    destruct (pending !! key) as [v|] eqn:Hp; [|done].
    exfalso. rewrite property_None in E. apply (E v).
    unfold handled. apply list_elem_of_filter. split.
    + cbn. rewrite Hf. by eexists.
    + by apply elem_of_map_to_list.
Qed.

(** What a flush leaves in the committed state, key by key. *)
Lemma flush_state a h key :
  state (flush (a, h)).1 !! key =
  match stateApplierFunctionMap a !! key, nextStateChanges a !! key with
  | Some _, Some v => Some v
  | _, _ => state a !! key
  end.
Proof.
  rewrite flush_eq. cbn [fst state set_state set_nextStateChanges].
  rewrite assign_all_lookup, property_handled.
  destruct (stateApplierFunctionMap a !! key); [|done].
  by destruct (nextStateChanges a !! key).
Qed.

Lemma elem_of_invocations handlers committed entries i :
  i ∈ invocations handlers committed entries ↔
  (member i, newValue i) ∈ entries
  ∧ handlers !! member i = Some (handler i)
  ∧ oldValue i = get committed (member i).
Proof.
  unfold invocations. rewrite list_elem_of_omap. split.
  - intros ([key v] & Hin & Hi).
    destruct (handlers !! key) as [f|] eqn:E; [|done].
    by injection Hi as <-.
  - intros (Hin & Hf & Ho). exists (member i, newValue i). split; [done|].
    rewrite Hf, <- Ho. by destruct i.
Qed.

Lemma invocations_members handlers committed entries :
  NoDup entries.*1 → NoDup (member <$> invocations handlers committed entries).
Proof.
  induction entries as [|[key v] entries IH]; [intros; constructor|].
  intros Hnd. apply NoDup_cons in Hnd as [Hnot Hnd].
  rewrite invocations_cons. destruct (handlers !! key); [|by apply IH].
  cbn. apply NoDup_cons. split; [|by apply IH].
  intros Hin. apply list_elem_of_fmap in Hin as (i & Hm & Hi).
  apply elem_of_invocations in Hi as (Hi & _). apply Hnot.
  apply list_elem_of_fmap. exists (member i, newValue i). by rewrite Hm.
Qed.

Lemma handled_NoDup handlers entries :
  NoDup entries.*1 → NoDup (handled handlers entries).*1.
Proof.
  induction entries as [|[key v] entries IH]; [done|].
  intros [Hnot Hnd]%NoDup_cons. rewrite handled_cons.
  destruct (handlers !! key); [|by apply IH].
  cbn. apply NoDup_cons. split; [|by apply IH].
  intros ([x w] & -> & Hin)%list_elem_of_fmap. apply Hnot.
  apply list_elem_of_filter in Hin as [_ Hin].
  apply list_elem_of_fmap. by exists (x, w).
Qed.

(** The order in which the pending entries are visited does not matter for
    the committed state, and only permutes the invocations. *)
Lemma flush_entries_Permutation entries entries' a h :
  NoDup entries.*1 → entries ≡ₚ entries' →
  (flush_entries entries (a, h)).1 = (flush_entries entries' (a, h)).1
  ∧ invoked (flush_entries entries (a, h)).2
    ≡ₚ invoked (flush_entries entries' (a, h)).2.
Proof.
  intros Hnd Hp.
  assert (Hnd' : NoDup entries'.*1) by (by rewrite <- Hp).
  rewrite !flush_entries_eq by done. cbn [fst snd invoked]. split.
  - f_equal. apply map_eq. intros key. rewrite !assign_all_lookup.
    assert (Hprop : ∀ l, NoDup l.*1 → ∀ v,
               property (handled (stateApplierFunctionMap a) l) key = Some v
               ↔ (key, v) ∈ l ∧ is_Some (stateApplierFunctionMap a !! key)).
    { intros l Hl v. split.
      - intros H%property_Some_elem.
        apply list_elem_of_filter in H as [? ?]. done.
      - intros [Hin Hf]. apply property_NoDup.
        + by apply handled_NoDup.
        + apply list_elem_of_filter. done. }
    destruct (property (handled _ entries) key) as [v|] eqn:E1.
    + apply (Hprop _ Hnd) in E1. rewrite Hp in E1.
      apply (Hprop _ Hnd') in E1. by rewrite E1.
    + destruct (property (handled _ entries') key) as [v|] eqn:E2; [|done].
      apply (Hprop _ Hnd') in E2. rewrite <- Hp in E2.
      apply (Hprop _ Hnd) in E2. congruence.
  - unfold invocations. by rewrite Hp.
Qed.

Lemma fire_Some t a h ah' :
  fire t (a, h) = Some ah' ↔
  t ∈ scheduled h ∧ ah' = flush (a, unschedule t h).
Proof.
  unfold fire. cbn [fst snd]. case_bool_decide as Hin.
  - split; [by intros [= <-] | by intros [_ ->]].
  - split; [done | by intros [? _]].
Qed.

(** X28.  On a store with nothing pending under an inherited name, a flush
    commits every pending key that has a handler with its staged value and
    empties the pending buffer; a key without a handler keeps whatever the
    committed state held for it (nothing, if it was never written): the
    flush does not commit it. *)
Theorem flush_commits_handled_keys_only a h :
  ordinary_store a →
  let ah' := flush (a, h) in
  (∀ key v f,
     nextStateChanges a !! key = Some v →
     stateApplierFunctionMap a !! key = Some f →
     state ah'.1 !! key = Some v)
  ∧ nextStateChanges ah'.1 = ∅
  ∧ (∀ key,
       stateApplierFunctionMap a !! key = None →
       state ah'.1 !! key = state a !! key).
Proof.
  intros _ ah'. subst ah'. split; [|split].
  - intros key v f Hp Hf. by rewrite flush_state, Hf, Hp.
  - by rewrite flush_eq.
  - intros key Hf. by rewrite flush_state, Hf.
Qed.

(** A key other than the inherited names that never gets a handler and is
    never written by [setState] stays out of the committed state, whatever
    is applied, touched or flushed by calls that mention no inherited name,
    on a store with nothing pending under such a name. *)
Lemma unhandled_key_never_committed key es ah ah' :
  inherited key = false →
  ordinary_store ah.1 →
  Forall ordinary_event es →
  Forall (avoids key) es →
  stateApplierFunctionMap ah.1 !! key = None →
  run es ah = Some ah' →
  state ah'.1 !! key = state ah.1 !! key
  ∧ stateApplierFunctionMap ah'.1 !! key = None.
Proof.
  intros _ _ _.
  revert ah. induction es as [|e es IH]; intros [a h] Hall Hnone; cbn [run].
  { by intros [= <-]. }
  apply Forall_cons in Hall as [He Hall].
  destruct (step e (a, h)) as [[a1 h1]|] eqn:E; [|done]. intros Hrun.
  cbn [fst] in *.
  assert (state a1 !! key = state a !! key
          ∧ stateApplierFunctionMap a1 !! key = None) as [Hs Hf].
  { destruct e as [name func|name|nextState|nextState|arguments|t];
      cbn [step fst snd avoids] in E, He.
    - injection E as <- <-.
      destruct (addHandler_frame name func a) as (-> & _). split; [done|].
      destruct func as [| | |[]| | | |]; cbn; try done;
        try (by rewrite lookup_delete_None; right).
      destruct He as [?|?]; [|done]. by rewrite lookup_insert_ne.
    - injection E as <- <-. cbn. split; [done|].
      rewrite lookup_delete_None. by right.
    - injection E as <- <-. destruct (isObject nextState) eqn:Eo.
      + apply isObject_VObject in Eo as (r & props & ->).
        rewrite setState_object. cbn. rewrite assign_all_lookup.
        destruct He as [?|He]; [done|]. cbn in He. by rewrite He.
      + unfold setState. by rewrite Eo.
    - destruct (isObject nextState) eqn:Eo.
      + apply isObject_VObject in Eo as (r & props & ->).
        rewrite applyState_object, _STATETIMEOUTAPPLY_eq in E.
        by injection E as <- <-.
      + rewrite applyState_not_object in E by done. by injection E as <- <-.
    - rewrite touchState_eq, _STATETIMEOUTAPPLY_eq in E. by injection E as <- <-.
    - apply fire_Some in E as [_ E].
      assert (a1 = (flush (a, unschedule t h)).1) as -> by (by rewrite <- E).
      rewrite flush_state, Hnone. by rewrite flush_eq. }
  destruct (IH (a1, h1) Hall Hf Hrun) as [-> ->]. done.
Qed.

Lemma flush_commits_handled_keys_only_witness :
  let a := (addHandler "a" (VFunction 1) blank).2 in
  let ah :=
    (applyState (VObject 0 [("a", VNumber (Num 1)); ("z", VNumber (Num 5))])
       (a, quiet 0)).2 in
  nextStateChanges ah.1 !! "z" = Some (VNumber (Num 5))
  ∧ state (flush ah).1 !! "a" = Some (VNumber (Num 1))
  ∧ state (flush ah).1 !! "z" = None.
Proof.
  intros a ah. split; [reflexivity|].
  destruct (flush_commits_handled_keys_only ah.1 ah.2) as (H1 & _ & H3).
  - apply (bool_decide_unpack _). vm_compute. exact I.
  - split.
    + apply (H1 "a" (VNumber (Num 1)) 1); reflexivity.
    + etrans; [apply (H3 "z"); reflexivity | reflexivity].
Defined.

(** ** Coalescing *)

Lemma assign_all_app entries entries' obj :
  assign_all (entries ++ entries') obj = assign_all entries' (assign_all entries obj).
Proof. unfold assign_all. by rewrite foldl_app. Qed.

Lemma applyStates_eq args a h :
  let ah' := applyStates args (a, h) in
  state ah'.1 = state a
  ∧ stateApplierFunctionMap ah'.1 = stateApplierFunctionMap a
  ∧ nextStateChanges ah'.1
    = assign_all (staged (state a) args) (nextStateChanges a)
  ∧ invoked ah'.2 = invoked h.
Proof.
  revert a h. induction args as [|nextState args IH]; intros a h; [done|].
  cbn zeta. change (applyStates (nextState :: args) (a, h))
    with (applyStates args (applyState nextState (a, h)).2).
  cbn [staged flat_map]. fold (staged (state a) args).
  destruct (isObject nextState) eqn:E.
  - apply isObject_VObject in E as (r & props & ->).
    rewrite applyState_object. cbn [snd].
    destruct (_STATETIMEOUTAPPLY _) as [a1 h1] eqn:Harm.
    destruct (IH a1 h1) as (-> & -> & -> & ->).
    rewrite _STATETIMEOUTAPPLY_eq in Harm. injection Harm as <- <-.
    rewrite assign_all_app. done.
  - rewrite applyState_not_object by done. apply IH.
Qed.

(** C1.  After [applyState] has been called on each of [args] with no flush
    in between, the pending buffer holds, for each key, the value of the last
    call that staged it (or what it held before, when no call staged it),
    and no key has two entries.  When the flush then fires, no two of its
    invocations are for the same member name, and each invocation passes the
    pending value of its member to the handler registered under it. *)
Theorem applyState_calls_coalesce args a h :
  let ah' := applyStates args (a, h) in
  (∀ key,
     nextStateChanges ah'.1 !! key =
     match property (staged (state a) args) key with
     | Some v => Some v
     | None => nextStateChanges a !! key
     end)
  ∧ NoDup (map_to_list (nextStateChanges ah'.1)).*1
  ∧ (∀ t ah'',
       fire t ah' = Some ah'' →
       ∃ calls,
         invoked ah''.2 = invoked h ++ calls
         ∧ NoDup (member <$> calls)
         ∧ ∀ i, i ∈ calls →
             stateApplierFunctionMap a !! member i = Some (handler i)
             ∧ nextStateChanges ah'.1 !! member i = Some (newValue i)).
Proof.
  intros ah'. destruct (applyStates_eq args a h) as (Hs & Hf & Hp & Hi).
  fold ah' in Hs, Hf, Hp, Hi. split; [|split].
  - intros key. by rewrite Hp, assign_all_lookup.
  - apply NoDup_fst_map_to_list.
  - intros t ah'' Hfire. destruct ah' as [a' h'].
    apply fire_Some in Hfire as [_ ->]. rewrite flush_eq.
    cbn [fst snd invoked unschedule clearTimeout] in *.
    eexists. split; [by rewrite Hi|]. split.
    + apply invocations_members, NoDup_fst_map_to_list.
    + intros i (Hin & Hh & _)%elem_of_invocations.
      apply elem_of_map_to_list in Hin. by rewrite <- Hf.
Qed.

Lemma applyState_calls_coalesce_witness :
  let a := (addHandler "a" (VFunction 1) blank).2 in
  let args :=
    [VObject 0 [("a", VNumber (Num 1)); ("b", VNumber (Num 2))];
     VObject 1 [("a", VNumber (Num 3))]] in
  let ah' := applyStates args (a, quiet 0) in
  nextStateChanges ah'.1 !! "a" = Some (VNumber (Num 3))
  ∧ ∃ ah'' calls,
      fire 1 ah' = Some ah''
      ∧ invoked ah''.2 = calls
      ∧ NoDup (member <$> calls).
Proof.
  intros a args ah'.
  destruct (applyState_calls_coalesce args a (quiet 0)) as (H1 & _ & H3).
  split.
  - etrans; [apply (H1 "a") | reflexivity].
  - destruct (fire 1 ah') as [ah''|] eqn:E; [|discriminate E].
    destruct (H3 1 ah'' E) as (calls & Hi & Hnd & _).
    exists ah'', calls. split; [reflexivity|]. split; [exact Hi | exact Hnd].
Defined.

(** ** Touching *)

Lemma strict_eq_refl v : v ≠ VNumber NaN → strict_eq v v = true.
Proof.
  destruct v as [| | |[]| | | |]; intros H; cbn; try done;
    by apply bool_decide_eq_true.
Qed.

Lemma elem_of_touched a arguments key v :
  (key, v) ∈ touched a arguments ↔
  key ∈ arguments
  ∧ is_Some (stateApplierFunctionMap a !! key)
  ∧ v = get (state a) key.
Proof.
  unfold touched. rewrite list_elem_of_omap. split.
  - intros (n & Hin & Hn).
    destruct (stateApplierFunctionMap a !! n) as [f|] eqn:E; [|done].
    injection Hn as <- <-. rewrite E. eauto.
  - intros (Hin & [f Hf] & ->). exists key. by rewrite Hf.
Qed.

Lemma property_touched a arguments key :
  property (touched a arguments) key =
  match stateApplierFunctionMap a !! key with
  | Some _ => if bool_decide (key ∈ arguments)
              then Some (get (state a) key) else None
  | None => None
  end.
Proof.
  destruct (property _ key) as [v|] eqn:E.
  - apply property_Some_elem, elem_of_touched in E as (Hin & [f Hf] & ->).
    by rewrite Hf, bool_decide_eq_true_2.
  - destruct (stateApplierFunctionMap a !! key) as [f|] eqn:Hf; [|done].
    case_bool_decide as Hin; [|done]. exfalso.
    rewrite property_None in E. apply (E (get (state a) key)).
    apply elem_of_touched. rewrite Hf. eauto.
Qed.

(** In a list of invocations with distinct members, the invocations of
    one member are a single one. *)
Lemma invocations_of_member (calls : list Invocation) i :
  NoDup (member <$> calls) → i ∈ calls →
  filter (λ j, member j = member i) calls = [i].
Proof.
  induction calls as [|j calls IH]; intros Hnd Hin.
  { by apply elem_of_nil in Hin. }
  cbn [fmap list_fmap] in Hnd. apply NoDup_cons in Hnd as [Hnot Hnd].
  apply elem_of_cons in Hin as [->|Hin].
  - rewrite filter_cons_True by done. f_equal.
    apply elem_of_nil_inv. intros k [Hk Hin]%list_elem_of_filter.
    apply Hnot. rewrite <- Hk. apply list_elem_of_fmap. by exists k.
  - rewrite filter_cons_False; [by apply IH|].
    intros Hj. apply Hnot. rewrite Hj. apply list_elem_of_fmap. by exists i.
Qed.

(** C5, as the code has it.  Take a call of [touchState] that lists no
    inherited name, on a store with nothing pending under such a name.  The
    call stages, for each listed member that has a handler, the committed
    value of that member; of the invocations the following flush makes,
    exactly one is for that member: its handler, with the committed value
    both as the new and as the old value, so the two are strictly equal
    unless the value is [NaN].  A name without a handler is not staged. *)
Theorem touchState_notifies_with_committed_value arguments a h :
  ordinary_store a →
  Forall (λ name, inherited name = false) arguments →
  let ah' := (touchState arguments (a, h)).2 in
  (∀ name f,
     stateApplierFunctionMap a !! name = Some f →
     name ∈ arguments →
     let v := get (state a) name in
     nextStateChanges ah'.1 !! name = Some v
     ∧ (v ≠ VNumber NaN → strict_eq v v = true)
     ∧ ∀ t ah'',
         fire t ah' = Some ah'' →
         ∃ calls,
           invoked ah''.2 = invoked h ++ calls
           ∧ filter (λ i, member i = name) calls
             = [{| member := name; handler := f;
                   newValue := v; oldValue := v |}])
  ∧ (∀ name,
       stateApplierFunctionMap a !! name = None →
       nextStateChanges ah'.1 !! name = nextStateChanges a !! name).
Proof.
  intros _ _ ah'. subst ah'. rewrite touchState_eq, _STATETIMEOUTAPPLY_eq.
  cbn [fst snd nextStateChanges set_applierTimeout set_nextStateChanges].
  split.
  - intros name f Hf Hin.
    assert (Hp : assign_all (touched a arguments) (nextStateChanges a) !! name
                 = Some (get (state a) name)).
    { by rewrite assign_all_lookup, property_touched, Hf, bool_decide_eq_true_2. }
    split; [done|]. split; [apply strict_eq_refl|].
    intros t ah'' [_ ->]%fire_Some. rewrite flush_eq.
    cbn [fst snd invoked unschedule clearTimeout stateApplierFunctionMap state
           nextStateChanges set_applierTimeout set_nextStateChanges].
    eexists. split; [done|].
    apply (invocations_of_member _
             {| member := name; handler := f;
                newValue := get (state a) name;
                oldValue := get (state a) name |}).
    + apply invocations_members, NoDup_fst_map_to_list.
    + apply elem_of_invocations. cbn. split; [|done].
      by apply elem_of_map_to_list.
  - intros name Hf. by rewrite assign_all_lookup, property_touched, Hf.
Qed.

Lemma touchState_notifies_with_committed_value_witness :
  let a :=
    (setState (VObject 0 [("a", VNumber (Num 1))])
       (addHandler "a" (VFunction 7) blank).2).2 in
  let ah' := (touchState ["a"; "b"] (a, quiet 0)).2 in
  nextStateChanges ah'.1 !! "a" = Some (VNumber (Num 1))
  ∧ nextStateChanges ah'.1 !! "b" = None
  ∧ ∃ ah'' calls,
      fire 0 ah' = Some ah''
      ∧ invoked ah''.2 = calls
      ∧ filter (λ i, member i = "a") calls
        = [{| member := "a"; handler := 7;
              newValue := VNumber (Num 1); oldValue := VNumber (Num 1) |}].
Proof.
  intros a ah'.
  destruct (touchState_notifies_with_committed_value ["a"; "b"] a (quiet 0))
    as [H1 H2].
  - apply (bool_decide_unpack _). vm_compute. exact I.
  - repeat constructor.
  - destruct (H1 "a" 7 eq_refl ltac:(by left)) as (Hp & _ & Hfire).
    split; [exact Hp|]. split.
    + etrans; [apply (H2 "b"); reflexivity | reflexivity].
    + destruct (fire 0 ah') as [ah''|] eqn:E; [|discriminate E].
      destruct (Hfire 0 ah'' E) as (calls & Hi & Hin).
      exists ah'', calls. split; [reflexivity|]. split; [exact Hi | exact Hin].
Defined.

(** C5, as the claim words it, fails when the committed value is [NaN]: the
    handler is invoked with [NaN] twice, and [NaN === NaN] is false. *)
Lemma touchState_NaN_not_strictly_equal :
  let a :=
    (setState (VObject 0 [("a", VNumber NaN)])
       (addHandler "a" (VFunction 7) blank).2).2 in
  let ah' := (touchState ["a"] (a, quiet 0)).2 in
  ∃ ah'' i,
    fire 0 ah' = Some ah''
    ∧ invoked ah''.2 = [i]
    ∧ member i = "a"
    ∧ handler i = 7
    ∧ strict_eq (newValue i) (oldValue i) = false.
Proof.
  eexists _, _. split; [reflexivity|]. split; [reflexivity|]. done.
Qed.

(** ** One outstanding flush *)

Lemma step_cases e a h ah' :
  step e (a, h) = Some ah' →
  (arms e = true
   ∧ ah'.2 =
       {| scheduled :=
            match applierTimeout a with
            | Some t => filter (λ t', t' ≠ t) (scheduled h)
            | None => scheduled h
            end ++ [fresh h];
          fresh := S (fresh h);
          invoked := invoked h |}
   ∧ applierTimeout ah'.1 = Some (fresh h)
   ∧ nextStateChanges ah'.1 = assign_all (stages e a) (nextStateChanges a))
  ∨ (arms e = false ∧ is_fire e = false
     ∧ ah'.2 = h
     ∧ applierTimeout ah'.1 = applierTimeout a
     ∧ nextStateChanges ah'.1 = nextStateChanges a
     ∧ stages e a = [])
  ∨ (∃ t, e = Fire t ∧ t ∈ scheduled h ∧ ah' = flush (a, unschedule t h)).
Proof.
  destruct e as [name func|name|nextState|nextState|arguments|t];
    cbn [step fst snd]; intros Hstep.
  - right. left. injection Hstep as <-. cbn [fst snd].
    by destruct (addHandler_frame name func a) as (_ & -> & -> & _).
  - right. left. by injection Hstep as <-.
  - right. left. injection Hstep as <-. cbn [fst snd].
    destruct (isObject nextState) eqn:E.
    + apply isObject_VObject in E as (r & props & ->).
      by rewrite setState_object.
    + unfold setState. by rewrite E.
  - injection Hstep as <-. cbn [arms stages].
    destruct (isObject nextState) eqn:E.
    + left. apply isObject_VObject in E as (r & props & ->).
      by rewrite applyState_object, _STATETIMEOUTAPPLY_eq.
    + right. left. by rewrite applyState_not_object.
  - left. assert (ah' = (touchState arguments (a, h)).2) as -> by congruence.
    by rewrite touchState_eq, _STATETIMEOUTAPPLY_eq.
  - right. right. exists t. by apply fire_Some in Hstep as [? ->].
Qed.

Lemma flush_frame a h :
  scheduled (flush (a, h)).2 = scheduled h
  ∧ fresh (flush (a, h)).2 = fresh h
  ∧ applierTimeout (flush (a, h)).1 = applierTimeout a
  ∧ nextStateChanges (flush (a, h)).1 = ∅.
Proof. by rewrite flush_eq. Qed.

Lemma well_scheduled_step e ah ah' :
  well_scheduled ah → step e ah = Some ah' → well_scheduled ah'.
Proof.
  destruct ah as [a h]. intros [Hone Hold] Hstep. cbn [fst snd] in *.
  apply step_cases in Hstep
    as [(_ & Hh & Ht & _)|[(_ & _ & Hh & Ht & Hp & _)|(t & _ & Hin & ->)]].
  - assert (Hs : scheduled ah'.2 = [fresh h]).
    { rewrite Hh. cbn [scheduled].
      destruct Hone as [[-> _]|(t & -> & ->)].
      - by destruct (applierTimeout a).
      - rewrite filter_cons, decide_False by (by intros ?). done. }
    split.
    + right. exists (fresh h). by rewrite Hs, Ht.
    + intros t. rewrite Hs, Hh. cbn [fresh].
      intros ->%list_elem_of_singleton. lia.
  - split; rewrite Hh; [|done]. rewrite Ht, Hp. done.
  - destruct (flush_frame a (unschedule t h)) as (Hs & Hf & _ & Hp).
    assert (Hnil : scheduled (unschedule t h) = []).
    { destruct Hone as [[Hn _]|(t' & Hs' & _)]; cbn [unschedule clearTimeout scheduled];
        rewrite ?Hn, ?Hs' in *; [done|].
      apply list_elem_of_singleton in Hin as ->.
      rewrite filter_cons, decide_False by (by intros ?). done. }
    split.
    + left. by rewrite Hs, Hp.
    + intros t'. rewrite Hs, Hnil. by intros ?%elem_of_nil.
Qed.

Lemma well_scheduled_run es ah ah' :
  well_scheduled ah → run es ah = Some ah' → well_scheduled ah'.
Proof.
  revert ah. induction es as [|e es IH]; intros ah Hw; cbn [run].
  - by intros [= <-].
  - destruct (step e ah) as [ah1|] eqn:E; [|done].
    apply IH. by eapply well_scheduled_step.
Qed.

Lemma reachable_well_scheduled ah : reachable ah → well_scheduled ah.
Proof.
  intros (funcMap & a & n & es & Hc & Hrun).
  eapply well_scheduled_run; [|exact Hrun].
  destruct (isObject funcMap) eqn:E.
  - apply isObject_VObject in E as (r & props & ->).
    destruct (constructor_throws_or_object props r a Hc) as (_ & Hp & _).
    split; [left; split; [done | exact Hp] | by intros t ?%elem_of_nil].
  - unfold constructor in Hc. by rewrite E in Hc.
Qed.









End Facts.

Module FormFacts.
Import JS FormState.

(** A select whose [multiple] attribute carries a non-empty text gets the
    selected values as a new array, in document order. *)
Lemma SELECTEVENT_multiple name m opts b :
  name ≠ "" → m ≠ "" →
  let element := select name (Some m) opts in
  FormState.state (dispatch "change" element b) !! name
  = Some (VArray (next_ref b) (selected_values element)).
Proof.
  intros Hn Hm element. unfold dispatch.
  change (attached element) with [("change", Select)].
  cbn [foldl]. rewrite bool_decide_eq_true_2 by done. cbn [listen].
  unfold SELECTEVENT, getAttribute.
  assert (attributes element !! "name" = Some name) as ->.
  { cbn. rewrite lookup_insert_ne by done. apply lookup_singleton_eq. }
  assert (attributes element !! "multiple" = Some m) as ->.
  { cbn. apply lookup_insert_eq. }
  cbn [truthy]. rewrite !bool_decide_eq_false_2 by done.
  cbn. apply lookup_insert_eq.
Qed.

(** C8 at the markup [<select name="field" multiple>] with options
    [x], [y], [z] of which [y] and [z] are selected.  The attribute is
    present with the empty text, [!!element.getAttribute('multiple')] is
    [false], and the change event writes [element.value], the single string
    [y], instead of the array of [y] and [z]. *)
Theorem bare_multiple_attribute_writes_single_value :
  let element :=
    select "field" (Some "")
      [ {| option_value := "x"; option_label := "X"; option_selected := false |};
        {| option_value := "y"; option_label := "Y"; option_selected := true |};
        {| option_value := "z"; option_label := "Z"; option_selected := true |} ] in
  ∃ bound,
    bindFormState (NodeList [element]) None false 0 = Some bound
    ∧ attached element = [("change", Select)]
    ∧ getAttribute "multiple" element = VString ""
    ∧ selected_values element = [VString "y"; VString "z"]
    ∧ FormState.state (dispatch "change" element bound) !! "field"
      = Some (VString "y")
    ∧ ∀ r, FormState.state (dispatch "change" element bound) !! "field"
           ≠ Some (VArray r [VString "y"; VString "z"]).
Proof.
  intros element. eexists. split; [reflexivity|].
  assert (Hb : ∀ b, FormState.state (dispatch "change" element b) !! "field"
                    = Some (VString "y")).
  { intros b. cbn. apply lookup_insert_eq. }
  split; [reflexivity|]. split; [reflexivity|]. split; [reflexivity|].
  split; [apply Hb|]. intros r. by rewrite Hb.
Qed.

(** The same select with [multiple="multiple"] does get the array. *)
Example explicit_multiple_attribute_writes_array :
  let element :=
    select "field" (Some "multiple")
      [ {| option_value := "x"; option_label := "X"; option_selected := false |};
        {| option_value := "y"; option_label := "Y"; option_selected := true |};
        {| option_value := "z"; option_label := "Z"; option_selected := true |} ] in
  ∃ bound,
    bindFormState (NodeList [element]) None false 0 = Some bound
    ∧ FormState.state (dispatch "change" element bound) !! "field"
      = Some (VArray 0 [VString "y"; VString "z"]).
Proof.
  intros element. eexists. split; [reflexivity|].
  exact (SELECTEVENT_multiple "field" "multiple" _ _ ltac:(done) ltac:(done)).
Qed.

End FormFacts.

(** * Further properties of the store *)

Module StoreLaws.
Import JS Host AppState Facts.

(** ** The handler registry *)


Lemma invocations_handler handlers committed entries i :
  i ∈ invocations handlers committed entries →
  handlers !! member i = Some (handler i).
Proof. by intros (_ & ? & _)%elem_of_invocations. Qed.





Lemma addHandler_lookup x v a key :
  stateApplierFunctionMap (addHandler x v a).2 !! key =
  if decide (x = key) then
    match v with
    | VFunction f => Some f
    | VNull | VUndefined => None
    | _ => stateApplierFunctionMap a !! key
    end
  else stateApplierFunctionMap a !! key.
Proof.
  destruct (decide (x = key)) as [->|Hne].
  - destruct v as [| | |[]| | | |]; cbn; try done;
      try apply lookup_delete_eq. apply lookup_insert_eq.
  - destruct v as [| | |[]| | | |]; cbn; try done;
      by rewrite ?lookup_delete_ne, ?lookup_insert_ne.
Qed.

Lemma registration_lookup props a key :
  NoDup props.*1 →
  stateApplierFunctionMap (foldl (λ a '(n, f), (addHandler n f a).2) a props)
    !! key =
  match property props key with
  | Some (VFunction f) => Some f
  | Some VNull | Some VUndefined => None
  | _ => stateApplierFunctionMap a !! key
  end.
Proof.
  revert a. induction props as [|[x v] props IH]; intros a Hnd; [done|].
  apply NoDup_cons in Hnd as [Hx Hnd]. cbn [foldl property].
  rewrite (IH _ Hnd), addHandler_lookup.
  destruct (property props key) as [w|] eqn:E.
  - rewrite decide_False; [done|]. intros ->. apply Hx.
    apply property_Some_elem in E. apply list_elem_of_fmap. by exists (key, w).
  - destruct (decide (x = key)); [|done]. by destruct v as [| | |[]| | | |].
Qed.

(** X3.  A handler map whose keys are distinct, none of them an inherited
    name, registers exactly its function-valued entries: every other entry
    is dropped without an error. *)
Theorem constructor_keeps_functions_only r props :
  ordinary props →
  NoDup props.*1 →
  ∃ a,
    result (constructor (VObject r props)) = Built a
    ∧ (∀ key f,
         stateApplierFunctionMap a !! key = Some f ↔ (key, VFunction f) ∈ props)
    ∧ (∀ key v, (key, v) ∈ props → isFunction v = false →
         stateApplierFunctionMap a !! key = None).
Proof.
  intros _ Hnd.
  exists (foldl (λ a '(n, f), (addHandler n f a).2) blank props).
  split.
  { unfold constructor. change (negb (isObject (VObject r props))) with false.
    cbv iota. by rewrite each_VObject, (constructor_loop props [] blank). }
  split.
  - intros key f. rewrite (registration_lookup props blank key Hnd). split.
    + destruct (property props key) as [[| | |[]| | | |]|] eqn:E; try done.
      intros [= ->]. by apply property_Some_elem.
    + intros Hin. by rewrite (property_NoDup _ _ _ Hnd Hin).
  - intros key v Hin Hv. rewrite (registration_lookup props blank key Hnd).
    rewrite (property_NoDup _ _ _ Hnd Hin). by destruct v as [| | |[]| | | |].
Qed.

Lemma constructor_keeps_functions_only_witness :
  ∃ a,
    result (constructor
              (VObject 0 [("a", VFunction 1); ("b", VString "no")])) = Built a
    ∧ stateApplierFunctionMap a !! "a" = Some 1
    ∧ stateApplierFunctionMap a !! "b" = None.
Proof.
  destruct (constructor_keeps_functions_only 0
              [("a", VFunction 1); ("b", VString "no")]) as (a & Hc & H1 & H2).
  - repeat constructor.
  - apply (bool_decide_unpack _). vm_compute. exact I.
  - exists a. split; [exact Hc|]. split.
    + apply H1. by left.
    + apply (H2 "b" (VString "no")); [by right; left | reflexivity].
Defined.

(** ** Staging *)

Lemma applyState_eq nextState a h :
  let w := (applyState nextState (a, h)).2 in
  state w.1 = state a
  ∧ stateApplierFunctionMap w.1 = stateApplierFunctionMap a
  ∧ nextStateChanges w.1
    = assign_all (staged (state a) [nextState]) (nextStateChanges a)
  ∧ invoked w.2 = invoked h.
Proof. exact (applyStates_eq [nextState] a h). Qed.

Lemma staged_object committed r props :
  staged committed [VObject r props] = differing committed props.
Proof. cbn. by rewrite app_nil_r. Qed.

Lemma property_differing committed props key v :
  property props key = Some v →
  strict_eq (get committed key) v = false →
  property (differing committed props) key = Some v.
Proof.
  intros Hp Hne. induction props as [|[x w] props IH]; [done|].
  cbn [property] in Hp. rewrite differing_cons.
  destruct (property props key) as [u|] eqn:E.
  - injection Hp as ->. specialize (IH eq_refl).
    destruct (strict_neq (get committed x) w); [|done].
    cbn [property]. by rewrite IH.
  - destruct (decide (x = key)) as [->|]; [|done]. injection Hp as ->.
    unfold strict_neq. rewrite Hne. cbn [negb property].
    assert (property (differing committed props) key = None) as ->.
    { apply property_None. intros u [Hu _]%differing_elem.
      revert Hu. by apply property_None. }
    by rewrite decide_True.
Qed.




(** X5.  Applying the very mapping that [setState] has just written stages
    nothing, provided its keys are distinct, none of them is an inherited
    name and none of its values is [NaN]; the call still arms the flush. *)
Theorem setState_then_applyState_stages_nothing r r' props a h :
  ordinary props →
  NoDup props.*1 →
  (∀ key v, (key, v) ∈ props → v ≠ VNumber NaN) →
  let a1 := (setState (VObject r props) a).2 in
  let w := (applyState (VObject r' props) (a1, h)).2 in
  nextStateChanges w.1 = nextStateChanges a
  ∧ state w.1 = state a1
  ∧ applierTimeout w.1 = Some (fresh h).
Proof.
  intros _ Hnd Hnan a1 w. subst a1 w.
  rewrite setState_object, applyState_object, _STATETIMEOUTAPPLY_eq.
  cbn [fst snd state nextStateChanges applierTimeout set_state
         set_nextStateChanges set_applierTimeout].
  assert (differing (assign_all props (state a)) props = []) as ->; [|done].
  apply elem_of_nil_inv. intros [key v] [Hin Hne]%differing_elem.
  unfold get in Hne.
  rewrite assign_all_lookup, (property_NoDup _ _ _ Hnd Hin) in Hne. cbn in Hne.
  by rewrite (strict_eq_refl v (Hnan key v Hin)) in Hne.
Qed.

Lemma setState_then_applyState_stages_nothing_witness :
  let props := [("a", VNumber (Num 1)); ("b", VString "x")] in
  let a1 := (setState (VObject 0 props) blank).2 in
  nextStateChanges (applyState (VObject 1 props) (a1, quiet 0)).2.1 = ∅.
Proof.
  intros props a1.
  destruct (setState_then_applyState_stages_nothing 0 1 props blank (quiet 0))
    as (H & _).
  - repeat constructor.
  - apply (bool_decide_unpack _). vm_compute. exact I.
  - intros key v Hin.
    repeat (apply elem_of_cons in Hin as [[= _ ->]|Hin]; [done|]).
    by apply elem_of_nil in Hin.
  - exact H.
Defined.

(** ** Between staging and the flush *)

Lemma NoDup_fst_functional (props : list (string * value)) key u v :
  NoDup props.*1 → (key, u) ∈ props → (key, v) ∈ props → u = v.
Proof.
  intros Hnd Hu Hv.
  assert (Some u = Some v) as [= ->]; [|done].
  by rewrite <- (property_NoDup _ _ _ Hnd Hu), <- (property_NoDup _ _ _ Hnd Hv).
Qed.

(** X6.  A change staged by [applyState] is lost when the handler of its
    member is removed before the flush fires: the flush neither invokes a
    handler for that member nor commits the value, and it still empties the
    pending buffer.  The member and the applied mapping's keys are not
    inherited names, and nothing is pending under such a name. *)
Theorem removeHandler_before_flush_drops_change name nextState a h t w :
  inherited name = false →
  ordinary (own_entries nextState) →
  ordinary_store a →
  run [ApplyState nextState; RemoveHandler name; Fire t] (a, h) = Some w →
  state w.1 !! name = state a !! name
  ∧ nextStateChanges w.1 = ∅
  ∧ ∀ i, i ∈ invoked w.2 → i ∈ invoked h ∨ member i ≠ name.
Proof.
  intros _ _ _. cbn [run step fst snd]. intros Hfire.
  destruct (applyState_eq nextState a h) as (Hs & _ & _ & Hi).
  destruct (applyState nextState (a, h)).2 as [a1 h1]. cbn [fst snd] in *.
  destruct (fire t _) as [w'|] eqn:E; [|done]. injection Hfire as <-.
  apply fire_Some in E as [_ ->]. split; [|split].
  - rewrite flush_state. cbn. by rewrite lookup_delete_eq, Hs.
  - by rewrite flush_eq.
  - intros i. rewrite flush_eq. cbn [snd invoked unschedule clearTimeout].
    rewrite Hi. intros [?|Hin%invocations_handler]%elem_of_app; [by left|].
    right. intros Hm. cbn in Hin. by rewrite Hm, lookup_delete_eq in Hin.
Qed.

Lemma removeHandler_before_flush_drops_change_witness :
  let a := (addHandler "a" (VFunction 1) blank).2 in
  ∃ w,
    run [ApplyState (VObject 0 [("a", VNumber (Num 1))]);
         RemoveHandler "a"; Fire 0] (a, quiet 0) = Some w
    ∧ state w.1 !! "a" = None
    ∧ nextStateChanges w.1 = ∅.
Proof.
  intros a. eexists. split; [reflexivity|].
  destruct (removeHandler_before_flush_drops_change
              "a" (VObject 0 [("a", VNumber (Num 1))]) a (quiet 0) 0 _
              eq_refl ltac:(repeat constructor)
              ltac:(apply (bool_decide_unpack _); vm_compute; exact I) eq_refl)
    as (H1 & H2 & _).
  split; [exact H1 | exact H2].
Defined.

(** X7.  Once a flush has committed a value to a member that has a
    handler, applying the same mapping again does not stage that member
    (for a value other than [NaN], in a mapping with distinct keys, starting
    with nothing pending). *)
Theorem flushed_value_is_not_staged_again r r' props key v f a h t w :
  nextStateChanges a = ∅ →
  NoDup props.*1 →
  (key, v) ∈ props →
  v ≠ VNumber NaN →
  stateApplierFunctionMap a !! key = Some f →
  fire t (applyState (VObject r props) (a, h)).2 = Some w →
  strict_eq (get (state w.1) key) v = true
  ∧ nextStateChanges (applyState (VObject r' props) w).2.1 !! key = None.
Proof.
  intros Hidle Hnd Hin Hnan Hf Hfire.
  destruct (applyState_eq (VObject r props) a h) as (Hs & Hh & Hn & _).
  rewrite staged_object, Hidle in Hn.
  destruct (applyState (VObject r props) (a, h)).2 as [a1 h1].
  cbn [fst snd] in *. apply fire_Some in Hfire as [_ ->].
  assert (Hcommitted :
            strict_eq (get (state (flush (a1, unschedule t h1)).1) key) v = true).
  { unfold get. rewrite flush_state, Hh, Hf, Hn, assign_all_lookup, Hs.
    destruct (strict_eq (get (state a) key) v) eqn:E.
    - destruct (property _ key) as [u|] eqn:Ep; [|done].
      apply property_Some_elem, differing_elem in Ep as [Hu Hne].
      rewrite (NoDup_fst_functional _ _ _ _ Hnd Hu Hin) in Hne. congruence.
    - rewrite (property_differing _ _ _ _ (property_NoDup _ _ _ Hnd Hin) E).
      by apply strict_eq_refl. }
  split; [done|].
  destruct (flush (a1, unschedule t h1)) as [a2 h2] eqn:Efl.
  assert (Hp2 : nextStateChanges a2 = ∅).
  { destruct (flush_frame a1 (unschedule t h1)) as (_ & _ & _ & Hp).
    by rewrite Efl in Hp. }
  destruct (applyState_eq (VObject r' props) a2 h2) as (_ & _ & -> & _).
  rewrite staged_object, Hp2, assign_all_lookup.
  destruct (property _ key) as [u|] eqn:Ep; [|done].
  apply property_Some_elem, differing_elem in Ep as [Hu Hne].
  rewrite (NoDup_fst_functional _ _ _ _ Hnd Hu Hin) in Hne.
  cbn [fst] in Hcommitted. congruence.
Qed.

Lemma flushed_value_is_not_staged_again_witness :
  let a := (addHandler "a" (VFunction 1) blank).2 in
  let m := [("a", VNumber (Num 1))] in
  ∃ w,
    fire 0 (applyState (VObject 0 m) (a, quiet 0)).2 = Some w
    ∧ nextStateChanges (applyState (VObject 1 m) w).2.1 !! "a" = None.
Proof.
  intros a m. eexists. split; [reflexivity|].
  refine (proj2 (flushed_value_is_not_staged_again 0 1 m "a" (VNumber (Num 1))
                   1 a (quiet 0) 0 _ eq_refl _ _ _ eq_refl eq_refl)).
  - apply (bool_decide_unpack _). vm_compute. exact I.
  - by left.
  - discriminate.
Defined.

(** X8.  A member without a handler, other than the inherited names, is
    never committed, so a value that differs from what is committed for it
    is staged again by every [applyState] that carries it, after any history
    that neither registers a handler for the member nor writes it through
    [setState].  The history and the mapping mention no inherited name, and
    nothing is pending under such a name at the start. *)
Theorem unhandled_member_is_staged_by_every_call r props key v es a h w :
  inherited key = false →
  ordinary props →
  ordinary_store a →
  Forall ordinary_event es →
  stateApplierFunctionMap a !! key = None →
  property props key = Some v →
  strict_eq (get (state a) key) v = false →
  Forall (avoids key) es →
  run es (a, h) = Some w →
  nextStateChanges (applyState (VObject r props) w).2.1 !! key = Some v.
Proof.
  intros Hkey _ Hstore Hes Hnone Hp Hne Hall Hrun.
  destruct (unhandled_key_never_committed
              key es (a, h) w Hkey Hstore Hes Hall Hnone Hrun) as [Hs _].
  destruct w as [a1 h1]. cbn [fst] in Hs.
  destruct (applyState_eq (VObject r props) a1 h1) as (_ & _ & -> & _).
  rewrite staged_object, assign_all_lookup.
  rewrite (property_differing (state a1) props key v Hp); [done|].
  unfold get. by rewrite Hs.
Qed.

Lemma unhandled_member_is_staged_by_every_call_witness :
  let z := VObject 0 [("z", VNumber (Num 5))] in
  ∃ w,
    run [ApplyState z; Fire 0; ApplyState z; Fire 1] (blank, quiet 0) = Some w
    ∧ nextStateChanges (applyState z w).2.1 !! "z" = Some (VNumber (Num 5)).
Proof.
  intros z. eexists. split; [reflexivity|].
  apply (unhandled_member_is_staged_by_every_call 0 [("z", VNumber (Num 5))]
           "z" (VNumber (Num 5)) [ApplyState z; Fire 0; ApplyState z; Fire 1]
           blank (quiet 0)); try reflexivity.
  - repeat constructor.
  - apply (bool_decide_unpack _). vm_compute. exact I.
  - repeat constructor.
  - repeat constructor.
Defined.

(** X9.  The old value a handler receives is the one committed when the
    flush runs, not the one the change was compared with: after
    [applyState({key: v})] and then [setState({key: v'})], the flush invokes
    the handler with [(v, v')] and commits [v] over what [setState] wrote. *)
Theorem handler_sees_value_committed_at_flush r r' key v v' f a h t w :
  nextStateChanges a = ∅ →
  stateApplierFunctionMap a !! key = Some f →
  strict_eq (get (state a) key) v = false →
  run [ApplyState (VObject r [(key, v)]); SetState (VObject r' [(key, v')]);
       Fire t] (a, h) = Some w →
  invoked w.2
  = invoked h
    ++ [{| member := key; handler := f; newValue := v; oldValue := v' |}]
  ∧ state w.1 !! key = Some v.
Proof.
  intros Hidle Hf Hne. cbn [run step fst snd]. intros Hfire.
  destruct (fire t _) as [w'|] eqn:E; [|done]. injection Hfire as <-.
  rewrite applyState_object, _STATETIMEOUTAPPLY_eq, setState_object in E.
  rewrite differing_cons in E. unfold strict_neq in E. rewrite Hne, Hidle in E.
  cbn in E. rewrite insert_empty in E.
  apply fire_Some in E as [_ ->]. split.
  - rewrite flush_eq. cbn. rewrite map_to_list_singleton, invocations_cons.
    cbn. rewrite Hf. unfold get. by rewrite lookup_insert_eq.
  - rewrite flush_state. cbn. by rewrite Hf, lookup_singleton_eq.
Qed.

Lemma handler_sees_value_committed_at_flush_witness :
  let a := (addHandler "a" (VFunction 1) blank).2 in
  ∃ w,
    run [ApplyState (VObject 0 [("a", VNumber (Num 2))]);
         SetState (VObject 1 [("a", VNumber (Num 2))]); Fire 0]
      (a, quiet 0) = Some w
    ∧ invoked w.2
      = [{| member := "a"; handler := 1;
            newValue := VNumber (Num 2); oldValue := VNumber (Num 2) |}].
Proof.
  intros a. eexists. split; [reflexivity|].
  exact (proj1 (handler_sees_value_committed_at_flush 0 1 "a" (VNumber (Num 2))
                  (VNumber (Num 2)) 1 a (quiet 0) 0 _
                  eq_refl eq_refl eq_refl eq_refl)).
Defined.

Lemma flush_idle a h : nextStateChanges a = ∅ → flush (a, h) = (a, h).
Proof.
  intros Hidle. rewrite flush_eq, Hidle, map_to_list_empty. cbn.
  rewrite app_nil_r. destruct a, h. cbn in *. by subst.
Qed.

(** X10.  The flush armed by an [applyState] that found nothing to stage is
    silent: fired on a store with nothing pending, it commits nothing and
    invokes no handler, and nothing stays scheduled behind it. *)
Theorem flush_armed_by_unchanged_values_is_silent r props a h t w :
  nextStateChanges a = ∅ →
  scheduled h = [] →
  (∀ key v, (key, v) ∈ props → strict_eq (get (state a) key) v = true) →
  fire t (applyState (VObject r props) (a, h)).2 = Some w →
  t = fresh h
  ∧ w.1 = set_applierTimeout (Some t) a
  ∧ invoked w.2 = invoked h
  ∧ scheduled w.2 = [].
Proof.
  intros Hidle Hquiet Hsame.
  rewrite applyState_object, _STATETIMEOUTAPPLY_eq. cbn [snd].
  assert (differing (state a) props = []) as ->.
  { apply elem_of_nil_inv. intros [key v] [Hin Hne]%differing_elem.
    by rewrite (Hsame key v Hin) in Hne. }
  cbn [assign_all foldl]. rewrite set_nextStateChanges_id, Hquiet.
  intros [Hin ->]%fire_Some. cbn [scheduled] in Hin.
  assert (t = fresh h) as ->.
  { destruct (applierTimeout a); cbn in Hin;
      by apply list_elem_of_singleton in Hin. }
  rewrite flush_idle by done. cbn.
  split; [done|]. split; [done|]. split; [done|].
  destruct (applierTimeout a); cbn; by rewrite decide_False by (by intros ?).
Qed.

Lemma flush_armed_by_unchanged_values_is_silent_witness :
  let a := (setState (VObject 0 [("a", VNumber (Num 1))])
              (addHandler "a" (VFunction 1) blank).2).2 in
  ∃ w,
    fire 0 (applyState (VObject 1 [("a", VNumber (Num 1))]) (a, quiet 0)).2
    = Some w
    ∧ invoked w.2 = [] ∧ scheduled w.2 = [].
Proof.
  intros a.
  destruct (fire 0 (applyState (VObject 1 [("a", VNumber (Num 1))])
                      (a, quiet 0)).2) as [w|] eqn:E; [|discriminate E].
  exists w. split; [reflexivity|].
  destruct (flush_armed_by_unchanged_values_is_silent
              1 [("a", VNumber (Num 1))] a (quiet 0) 0 w eq_refl eq_refl)
    as (_ & _ & H3 & H4).
  - intros key v Hin. apply list_elem_of_singleton in Hin.
    injection Hin as -> ->. reflexivity.
  - exact E.
  - split; [exact H3 | exact H4].
Defined.

(** X11.  [touchState] overwrites what is pending for the member: a value
    staged for it by an earlier [applyState] in the same turn is discarded,
    the flush invokes the handler with the committed value twice, and the
    committed value stays. *)
Theorem touchState_discards_staged_value r props arguments name f a h :
  stateApplierFunctionMap a !! name = Some f →
  name ∈ arguments →
  let old := get (state a) name in
  let w := (touchState arguments (applyState (VObject r props) (a, h)).2).2 in
  nextStateChanges w.1 !! name = Some old
  ∧ ∀ t w',
      fire t w = Some w' →
      state w'.1 !! name = Some old
      ∧ {| member := name; handler := f; newValue := old; oldValue := old |}
        ∈ invoked w'.2.
Proof.
  intros Hf Hin old w. subst old w.
  destruct (applyState_eq (VObject r props) a h) as (Hs & Hh & _).
  destruct (applyState (VObject r props) (a, h)).2 as [a1 h1].
  cbn [fst snd] in *. rewrite touchState_eq, _STATETIMEOUTAPPLY_eq.
  cbn [fst snd nextStateChanges set_applierTimeout set_nextStateChanges].
  assert (Hp : assign_all (touched a1 arguments) (nextStateChanges a1) !! name
               = Some (get (state a) name)).
  { rewrite assign_all_lookup, property_touched, Hh, Hf, Hs.
    by rewrite bool_decide_eq_true_2. }
  split; [done|]. intros t w' [_ ->]%fire_Some. split.
  - rewrite flush_state. cbn. by rewrite Hh, Hf, Hp.
  - rewrite flush_eq. cbn. apply elem_of_app. right.
    apply elem_of_invocations. cbn. rewrite Hh, Hs.
    split; [by apply elem_of_map_to_list|done].
Qed.

Lemma touchState_discards_staged_value_witness :
  let a := (setState (VObject 0 [("a", VNumber (Num 1))])
              (addHandler "a" (VFunction 1) blank).2).2 in
  let w :=
    (touchState ["a"]
       (applyState (VObject 1 [("a", VNumber (Num 2))]) (a, quiet 0)).2).2 in
  nextStateChanges w.1 !! "a" = Some (VNumber (Num 1))
  ∧ ∃ w', fire 1 w = Some w' ∧ state w'.1 !! "a" = Some (VNumber (Num 1)).
Proof.
  intros a w.
  destruct (touchState_discards_staged_value 1 [("a", VNumber (Num 2))] ["a"]
              "a" 1 a (quiet 0) eq_refl ltac:(by left)) as [H1 H2].
  split; [exact H1|].
  destruct (fire 1 w) as [w'|] eqn:E; [|discriminate E].
  exists w'. split; [reflexivity|]. exact (proj1 (H2 1 w' E)).
Defined.

(** ** Invariants over histories *)

(** X12.  No staged change is left without a flush: in every store the
    interface can produce, a non-empty pending buffer comes with exactly one
    scheduled token, the one the store remembers, and firing it empties the
    buffer. *)
Theorem pending_changes_have_a_scheduled_flush ah :
  reachable ah →
  nextStateChanges ah.1 ≠ ∅ →
  ∃ t ah',
    scheduled ah.2 = [t]
    ∧ applierTimeout ah.1 = Some t
    ∧ fire t ah = Some ah'
    ∧ nextStateChanges ah'.1 = ∅
    ∧ scheduled ah'.2 = [].
Proof.
  intros [[[_ Hidle]|(t & Hs & Ht)] _]%reachable_well_scheduled Hne; [done|].
  destruct ah as [a h]. cbn [fst snd] in *.
  exists t, (flush (a, unschedule t h)).
  split; [done|]. split; [done|]. split.
  { apply fire_Some. split; [|done]. rewrite Hs. by left. }
  destruct (flush_frame a (unschedule t h)) as (-> & _ & _ & ->).
  split; [done|]. cbn. rewrite Hs. cbn.
  by rewrite decide_False by (by intros ?).
Qed.

Lemma pending_changes_have_a_scheduled_flush_witness :
  let ah := (applyState (VObject 0 [("a", VNumber (Num 1))]) (blank, quiet 3)).2 in
  ∃ t ah', scheduled ah.2 = [t] ∧ fire t ah = Some ah'.
Proof.
  intros ah.
  destruct (pending_changes_have_a_scheduled_flush ah)
    as (t & ah' & Hs & _ & Hf & _).
  - exists (VObject 0 []), blank, 3, [ApplyState (VObject 0 [("a", VNumber (Num 1))])].
    split; reflexivity.
  - intros H. apply (f_equal (λ m : gmap string value, m !! "a")) in H.
    vm_compute in H. discriminate H.
  - exists t, ah'. split; [exact Hs | exact Hf].
Defined.

(** X13.  The order in which the pending members are visited does not
    matter for the outcome of a flush: along any enumeration of the pending
    buffer the loop ends in the same store, and makes the same invocations up
    to their order. *)
Theorem flush_order_is_irrelevant entries a h :
  entries ≡ₚ map_to_list (nextStateChanges a) →
  set_nextStateChanges ∅ (flush_entries entries (a, h)).1 = (flush (a, h)).1
  ∧ invoked (flush_entries entries (a, h)).2 ≡ₚ invoked (flush (a, h)).2.
Proof.
  intros Hp.
  assert (Hnd : NoDup entries.*1).
  { rewrite Hp. apply NoDup_fst_map_to_list. }
  destruct (flush_entries_Permutation _ _ a h Hnd Hp) as [Ha Hi].
  unfold flush. cbn [fst].
  destruct (flush_entries (map_to_list (nextStateChanges a)) (a, h))
    as [a' h'].
  cbn [fst snd] in *. by rewrite Ha.
Qed.

Lemma flush_order_is_irrelevant_witness :
  let a :=
    set_nextStateChanges
      (<["a" := VNumber (Num 1)]> (<["b" := VNumber (Num 2)]> ∅))
      (addHandler "b" (VFunction 2) (addHandler "a" (VFunction 1) blank).2).2 in
  state
    (flush_entries [("b", VNumber (Num 2)); ("a", VNumber (Num 1))]
       (a, quiet 0)).1
  = state (flush (a, quiet 0)).1.
Proof.
  intros a.
  destruct (flush_order_is_irrelevant
              [("b", VNumber (Num 2)); ("a", VNumber (Num 1))] a (quiet 0))
    as [H _].
  - assert (E : map_to_list (nextStateChanges a)
                = [("a", VNumber (Num 1)); ("b", VNumber (Num 2))])
      by (vm_compute; reflexivity).
    rewrite E. apply perm_swap.
  - exact (f_equal state H).
Defined.

Lemma step_frame e ah ah' :
  step e ah = Some ah' →
  changeVerifierMap ah'.1 = changeVerifierMap ah.1
  ∧ (registers e = false →
       stateApplierFunctionMap ah'.1 = stateApplierFunctionMap ah.1)
  ∧ (commits e = false →
       state ah'.1 = state ah.1 ∧ invoked ah'.2 = invoked ah.2).
Proof.
  destruct ah as [a h].
  destruct e as [name func|name|nextState|nextState|arguments|t];
    cbn [step fst snd registers commits]; intros Hstep.
  - injection Hstep as <-. cbn [fst snd].
    destruct (addHandler_frame name func a) as (-> & _ & _ & ->). done.
  - by injection Hstep as <-.
  - injection Hstep as <-. cbn [fst snd].
    destruct (isObject nextState) eqn:E.
    + apply isObject_VObject in E as (r & props & ->).
      by rewrite setState_object.
    + unfold setState. by rewrite E.
  - injection Hstep as <-. destruct (isObject nextState) eqn:E.
    + apply isObject_VObject in E as (r & props & ->).
      by rewrite applyState_object, _STATETIMEOUTAPPLY_eq.
    + by rewrite applyState_not_object.
  - assert (ah' = (touchState arguments (a, h)).2) as -> by congruence.
    by rewrite touchState_eq, _STATETIMEOUTAPPLY_eq.
  - apply fire_Some in Hstep as [_ ->]. by rewrite flush_eq.
Qed.

(** X14.  Only [addHandler] and [removeHandler] write the handler registry:
    over any history without them, whatever is set, applied, touched or
    flushed, the registry stays as it was.  Nothing at all writes
    [changeVerifierMap]. *)
Theorem only_registration_changes_the_registry es ah ah' :
  run es ah = Some ah' →
  changeVerifierMap ah'.1 = changeVerifierMap ah.1
  ∧ (Forall (λ e, registers e = false) es →
       stateApplierFunctionMap ah'.1 = stateApplierFunctionMap ah.1).
Proof.
  revert ah. induction es as [|e es IH]; intros ah; cbn [run].
  - by intros [= <-].
  - destruct (step e ah) as [ah1|] eqn:E; [|done]. intros Hrun.
    destruct (step_frame e ah ah1 E) as (Hv & Hr & _).
    destruct (IH ah1 Hrun) as [Hv' Hr']. split; [congruence|].
    intros [He Hall]%Forall_cons. rewrite (Hr' Hall). by apply Hr.
Qed.

Lemma only_registration_changes_the_registry_witness :
  let a := (addHandler "a" (VFunction 1) blank).2 in
  ∃ w,
    run [ApplyState (VObject 0 [("a", VNumber (Num 1))]); TouchState ["a"];
         Fire 1; SetState (VObject 1 [("b", VNull)])] (a, quiet 0) = Some w
    ∧ stateApplierFunctionMap w.1 = stateApplierFunctionMap a.
Proof.
  intros a. eexists. split; [reflexivity|].
  refine (proj2 (only_registration_changes_the_registry
                   [ApplyState (VObject 0 [("a", VNumber (Num 1))]);
                    TouchState ["a"]; Fire 1;
                    SetState (VObject 1 [("b", VNull)])]
                   (a, quiet 0) _ eq_refl) _).
  repeat constructor.
Defined.

(** X15.  [applyState] and [touchState] only stage: over any history
    without [setState] and without a firing, the committed state is unchanged
    and no handler has been invoked. *)
Theorem staging_leaves_committed_state_alone es ah ah' :
  Forall (λ e, commits e = false) es →
  run es ah = Some ah' →
  state ah'.1 = state ah.1 ∧ invoked ah'.2 = invoked ah.2.
Proof.
  revert ah. induction es as [|e es IH]; intros ah Hall; cbn [run].
  - by intros [= <-].
  - apply Forall_cons in Hall as [He Hall].
    destruct (step e ah) as [ah1|] eqn:E; [|done]. intros Hrun.
    destruct (step_frame e ah ah1 E) as (_ & _ & Hc).
    destruct (Hc He) as [<- <-]. by apply IH.
Qed.

Lemma staging_leaves_committed_state_alone_witness :
  let a := (addHandler "a" (VFunction 1) blank).2 in
  ∃ w,
    run [ApplyState (VObject 0 [("a", VNumber (Num 1))]); TouchState ["a"];
         RemoveHandler "a"] (a, quiet 0) = Some w
    ∧ state w.1 = ∅ ∧ invoked w.2 = [].
Proof.
  intros a. eexists. split; [reflexivity|].
  apply (staging_leaves_committed_state_alone
           [ApplyState (VObject 0 [("a", VNumber (Num 1))]); TouchState ["a"];
            RemoveHandler "a"] (a, quiet 0)); [|reflexivity].
  repeat constructor.
Defined.

(** X23.  The flush callback does not reset [applierTimeout]: after a
    firing the store still remembers the fired token although nothing is
    scheduled, and the next arming call schedules exactly one new flush all
    the same. *)
Theorem fired_token_stays_remembered ah t ah' :
  reachable ah →
  fire t ah = Some ah' →
  applierTimeout ah'.1 = Some t
  ∧ scheduled ah'.2 = []
  ∧ ∀ e ah'', arms e = true → step e ah' = Some ah'' →
      scheduled ah''.2 = [fresh ah'.2]
      ∧ applierTimeout ah''.1 = Some (fresh ah'.2).
Proof.
  intros [Hone _]%reachable_well_scheduled Hfire.
  destruct ah as [a h]. cbn [fst snd] in *.
  apply fire_Some in Hfire as [Hin ->].
  destruct Hone as [[Hn _]|(t' & Hs & Ht)].
  { rewrite Hn in Hin. by apply elem_of_nil in Hin. }
  rewrite Hs in Hin. apply list_elem_of_singleton in Hin as ->.
  destruct (flush_frame a (unschedule t' h)) as (Hfs & Hff & Hft & _).
  assert (Hnil : scheduled (flush (a, unschedule t' h)).2 = []).
  { rewrite Hfs. cbn. rewrite Hs. cbn. by rewrite decide_False by (by intros ?). }
  split; [by rewrite Hft|]. split; [done|].
  intros e ah'' Harm Hstep.
  destruct (flush (a, unschedule t' h)) as [a2 h2]. cbn [fst snd] in *.
  apply step_cases in Hstep
    as [(_ & -> & -> & _)|[(? & _)|(t & Heq & _)]];
    [|congruence|by rewrite Heq in Harm].
  split; [|done]. cbn. rewrite Hnil. by destruct (applierTimeout a2).
Qed.

Lemma fired_token_stays_remembered_witness :
  let ah := (applyState (VObject 0 [("a", VNumber (Num 1))]) (blank, quiet 4)).2 in
  ∃ ah', fire 4 ah = Some ah'
         ∧ applierTimeout ah'.1 = Some 4 ∧ scheduled ah'.2 = [].
Proof.
  intros ah.
  destruct (fire 4 ah) as [ah'|] eqn:E; [|discriminate E].
  exists ah'. split; [reflexivity|].
  destruct (fired_token_stays_remembered ah 4 ah') as (H1 & H2 & _).
  - exists (VObject 0 []), blank, 4,
      [ApplyState (VObject 0 [("a", VNumber (Num 1))])].
    split; reflexivity.
  - exact E.
  - split; [exact H1 | exact H2].
Defined.

(** X24.  A flush commits exactly what it notifies: every invocation it
    makes passes the value committed before the flush as old value and leaves
    its new value committed, and a member for which it made no invocation
    keeps its committed value. *)
Theorem flush_commits_exactly_what_it_notifies a h :
  ∃ calls,
    invoked (flush (a, h)).2 = invoked h ++ calls
    ∧ (∀ i, i ∈ calls →
         state (flush (a, h)).1 !! member i = Some (newValue i)
         ∧ oldValue i = get (state a) (member i))
    ∧ (∀ key, (∀ i, i ∈ calls → member i ≠ key) →
         state (flush (a, h)).1 !! key = state a !! key).
Proof.
  exists (invocations (stateApplierFunctionMap a) (state a)
            (map_to_list (nextStateChanges a))).
  split; [by rewrite flush_eq|]. split.
  - intros i (Hin & Hf & Ho)%elem_of_invocations.
    apply elem_of_map_to_list in Hin. by rewrite flush_state, Hf, Hin.
  - intros key Hnone. rewrite flush_state.
    destruct (stateApplierFunctionMap a !! key) as [f|] eqn:Hf; [|done].
    destruct (nextStateChanges a !! key) as [v|] eqn:Hp; [|done].
    destruct (Hnone {| member := key; handler := f; newValue := v;
                       oldValue := get (state a) key |}); [|done].
    apply elem_of_invocations. cbn. by rewrite elem_of_map_to_list.
Qed.

Lemma flush_commits_exactly_what_it_notifies_witness :
  let ah :=
    (applyState (VObject 0 [("a", VNumber (Num 1)); ("z", VNumber (Num 5))])
       ((addHandler "a" (VFunction 1) blank).2, quiet 0)).2 in
  state (flush ah).1 !! "z" = None.
Proof.
  intros ah.
  destruct (flush_commits_exactly_what_it_notifies ah.1 ah.2)
    as (calls & Hi & _ & H).
  assert (Hc : calls = [{| member := "a"; handler := 1;
                           newValue := VNumber (Num 1);
                           oldValue := VUndefined |}]).
  { apply (app_inv_head (invoked ah.2)). rewrite <- Hi. reflexivity. }
  etrans; [apply (H "z")|reflexivity].
  intros i Hin. rewrite Hc in Hin.
  apply list_elem_of_singleton in Hin as ->. discriminate.
Defined.

End StoreLaws.

(** * Further properties of the form binder *)

Module BinderLaws.
Import JS FormState.

Lemma memberName_None element :
  memberName element = None →
  getAttribute "name" element = VNull ∨ getAttribute "name" element = VString "".
Proof.
  unfold memberName, getAttribute.
  destruct (attributes element !! "name") as [name|]; [|by left].
  case_bool_decide as E; [|done]. rewrite E. by right.
Qed.

Lemma memberName_Some element name :
  memberName element = Some name →
  getAttribute "name" element = VString name ∧ name ≠ "".
Proof.
  unfold memberName, getAttribute.
  destruct (attributes element !! "name") as [name'|]; [|done].
  case_bool_decide as E; [done|]. by intros [= ->].
Qed.

Lemma listen_unnamed l element b :
  memberName element = None → listen l element b = b.
Proof.
  intros [H|H]%memberName_None;
    destruct l; cbn [listen];
    unfold CHECKBOXEVENT, TEXTEVENT, SELECTEVENT; by rewrite H.
Qed.

Lemma CHECKBOXEVENT_named element name b :
  memberName element = Some name →
  CHECKBOXEVENT element b =
  notify name
    (if checked element then write name (VString (value_of element)) b
     else remove name b).
Proof.
  intros [H Hne]%memberName_Some. unfold CHECKBOXEVENT. rewrite H.
  cbn [truthy]. by rewrite bool_decide_eq_false_2.
Qed.

Lemma TEXTEVENT_named element name b :
  memberName element = Some name →
  TEXTEVENT element b = notify name (write name (VString (value_of element)) b).
Proof.
  intros [H Hne]%memberName_Some. unfold TEXTEVENT. rewrite H.
  cbn [truthy]. by rewrite bool_decide_eq_false_2.
Qed.

Lemma SELECTEVENT_named element name b :
  memberName element = Some name →
  SELECTEVENT element b =
  notify name
    (if truthy (getAttribute "multiple" element) then
       write name (VArray (next_ref b) (selected_values element))
         (new_array (selected_values element) b).2
     else write name (VString (value_of element)) b).
Proof.
  intros [H Hne]%memberName_Some. unfold SELECTEVENT. rewrite H.
  cbn [truthy]. by rewrite bool_decide_eq_false_2.
Qed.

(** One event runs at most one listener. *)
Lemma dispatch_listen eventName element b :
  dispatch eventName element b = b
  ∨ ∃ l, (eventName, l) ∈ attached element
         ∧ dispatch eventName element b = listen l element b.
Proof.
  unfold dispatch, attached.
  repeat case_bool_decide; cbn [orb andb foldl];
    repeat case_bool_decide; subst; try (by left); try done;
    right; eexists; (split; [|reflexivity]);
    rewrite ?elem_of_cons; auto.
Qed.

Lemma listen_named l element name b :
  memberName element = Some name →
  (∀ key, key ≠ name →
     state (listen l element b) !! key = state b !! key)
  ∧ changed (listen l element b)
    = (if changeFunction b then changed b ++ [name] else changed b)
  ∧ changeFunction (listen l element b) = changeFunction b.
Proof.
  intros Hn. destruct l; cbn [listen].
  - rewrite (CHECKBOXEVENT_named _ _ _ Hn).
    destruct (checked element); cbn; (split; [|done]); intros key Hne;
      by rewrite ?lookup_insert_ne, ?lookup_delete_ne.
  - rewrite (TEXTEVENT_named _ _ _ Hn). cbn. split; [|done].
    intros key Hne. by rewrite lookup_insert_ne.
  - rewrite (SELECTEVENT_named _ _ _ Hn).
    destruct (truthy _); cbn; (split; [|done]); intros key Hne;
      by rewrite lookup_insert_ne.
Qed.

(** X16.  An element whose [name] attribute is absent or empty is ignored:
    no event on it changes the target object, notifies the change function
    or allocates anything. *)
Theorem unnamed_elements_are_ignored eventName element b :
  memberName element = None → dispatch eventName element b = b.
Proof.
  intros Hn. destruct (dispatch_listen eventName element b) as [H|(l & _ & H)];
    [done|]. by rewrite H, listen_unnamed.
Qed.

Lemma unnamed_elements_are_ignored_witness :
  dispatch "change" (input "" "text" "typed" false) (mkBinding ∅ true [] 0)
  = mkBinding ∅ true [] 0.
Proof.
  apply (unnamed_elements_are_ignored "change" (input "" "text" "typed" false)).
  reflexivity.
Defined.

Lemma dispatch_unattached eventName element b :
  (∀ l, (eventName, l) ∉ attached element) → dispatch eventName element b = b.
Proof.
  intros Hnot. destruct (dispatch_listen eventName element b)
    as [H|(l & Hin & _)]; [done|]. by destruct (Hnot l).
Qed.

(** X17.  What the binder does not track: a button or submit input and any
    element that is not an input, a textarea or a select never change the
    target; no event other than [change] and [keyup] does; and [keyup] does
    nothing on checkboxes, radio buttons and selects. *)
Theorem untracked_controls_and_events eventName element b :
  (tagName element = "INPUT" →
   type element = "button" ∨ type element = "submit" →
   dispatch eventName element b = b)
  ∧ (tagName element ≠ "INPUT" → tagName element ≠ "TEXTAREA" →
     tagName element ≠ "SELECT" →
     dispatch eventName element b = b)
  ∧ (eventName ≠ "change" → eventName ≠ "keyup" →
     dispatch eventName element b = b)
  ∧ (eventName = "keyup" →
     tagName element = "SELECT"
     ∨ (tagName element = "INPUT"
        ∧ (type element = "checkbox" ∨ type element = "radio")) →
     dispatch eventName element b = b).
Proof.
  split; [|split; [|split]].
  - intros Ht Hty. apply dispatch_unattached. intros l. unfold attached.
    rewrite Ht. destruct Hty as [-> | ->]; cbn; apply not_elem_of_nil.
  - intros H1 H2 H3. apply dispatch_unattached. intros l. unfold attached.
    rewrite !bool_decide_eq_false_2 by done. apply not_elem_of_nil.
  - intros H1 H2. apply dispatch_unattached. intros l Hin.
    unfold attached in Hin. repeat case_bool_decide; cbn in Hin;
      repeat (apply elem_of_cons in Hin as [[= ? ?]|Hin]; [done|]);
      by apply elem_of_nil in Hin.
  - intros -> Hkind. apply dispatch_unattached. intros l Hin.
    unfold attached in Hin.
    destruct Hkind as [Ht | [Ht [Hty | Hty]]]; rewrite Ht, ?Hty in Hin;
      cbn in Hin; apply list_elem_of_singleton in Hin; discriminate.
Qed.

Lemma untracked_controls_and_events_witness :
  dispatch "change" (input "go" "submit" "Go" false) (mkBinding ∅ true [] 0)
  = mkBinding ∅ true [] 0
  ∧ dispatch "keyup" (input "agree" "checkbox" "yes" true)
      (mkBinding ∅ true [] 0)
    = mkBinding ∅ true [] 0.
Proof.
  split.
  - exact (proj1 (untracked_controls_and_events "change"
                    (input "go" "submit" "Go" false) (mkBinding ∅ true [] 0))
             eq_refl (or_intror eq_refl)).
  - exact (proj2 (proj2 (proj2 (untracked_controls_and_events "keyup"
                    (input "agree" "checkbox" "yes" true)
                    (mkBinding ∅ true [] 0))))
             eq_refl (or_intror (conj eq_refl (or_introl eq_refl)))).
Defined.







Lemma dispatch_frame eventName element key b :
  let b' := dispatch eventName element b in
  (memberName element ≠ Some key → state b' !! key = state b !! key)
  ∧ changeFunction b' = changeFunction b
  ∧ length (changed b') ≤ S (length (changed b))
  ∧ (changeFunction b = false → changed b' = changed b).
Proof.
  intros b'. subst b'.
  destruct (dispatch_listen eventName element b) as [-> | (l & _ & ->)].
  { repeat split; auto. }
  destruct (memberName element) as [name|] eqn:Hn.
  - destruct (listen_named l element name b Hn) as (Hs & -> & ->).
    split; [|split; [done|split]].
    + intros Hne. apply Hs. congruence.
    + destruct (changeFunction b); [rewrite length_app; cbn|]; lia.
    + by intros ->.
  - rewrite listen_unnamed by done. repeat split; auto.
Qed.

(** X20.  Events only touch the member named after their own element: over
    any sequence of events, a member that none of the elements is named after
    keeps the value the target object had for it.  The change function is
    called at most once per event, and never when none was given. *)
Theorem events_touch_only_their_own_member events key b :
  (∀ eventName element,
     (eventName, element) ∈ events → memberName element ≠ Some key) →
  let b' := dispatch_all events b in
  state b' !! key = state b !! key
  ∧ length (changed b') ≤ length (changed b) + length events
  ∧ (changeFunction b = false → changed b' = changed b).
Proof.
  revert b. induction events as [|[eventName element] events IH];
    intros b Hother; cbn zeta.
  { cbn. split; [done|]. split; [lia|done]. }
  change (dispatch_all ((eventName, element) :: events) b)
    with (dispatch_all events (dispatch eventName element b)).
  destruct (dispatch_frame eventName element key b) as (Hs & Hcf & Hlen & Hno).
  destruct (IH (dispatch eventName element b)) as (Hs' & Hlen' & Hno').
  { intros ev el Hin. apply (Hother ev el). by right. }
  split; [|split].
  - rewrite Hs'. apply Hs. apply (Hother eventName element). by left.
  - cbn [length]. lia.
  - intros Hfalse. rewrite Hno' by congruence. by apply Hno.
Qed.

Lemma events_touch_only_their_own_member_witness :
  let b := mkBinding {["keep" := VNumber (Num 1)]} true [] 0 in
  let events :=
    [("change", input "q" "text" "a" false);
     ("keyup", input "q" "text" "ab" false);
     ("change", input "opt" "checkbox" "yes" true)] in
  state (dispatch_all events b) !! "keep" = Some (VNumber (Num 1))
  ∧ length (changed (dispatch_all events b)) ≤ 3.
Proof.
  intros b events.
  destruct (events_touch_only_their_own_member events "keep" b)
    as (H1 & H2 & _).
  - intros ev el Hin.
    repeat (apply elem_of_cons in Hin as [[= _ ->]|Hin]; [discriminate|]).
    by apply elem_of_nil in Hin.
  - split; [etrans; [exact H1 | reflexivity] | exact H2].
Defined.






End BinderLaws.
